(** * cacache-level: the ordered-iteration engine of [index.js]

    A shallow embedding of the iterator code of [index.js]: the key
    comparer, the signed binary search, [parseBounds], the cursor
    ([kInit], [kAdvanceNext], [kAdvancePrev], [_seek], [kAwaitIndex]),
    the value fetchers ([fetch], [getValue], [getMany]), the three
    iterator classes and [_batch].

    JavaScript data is kept as the code has it: array positions are
    integers ([Z]), a value that may be [undefined] is an [option] or a
    [value], a callback is a function into the effect monad [M], and a
    promise chain [p.then(f).catch(g)] is [catch (p ;; f) g]. *)

From Stdlib Require Import ZArith List String Ascii Bool Lia Permutation.
Import ListNotations.
Local Open Scope string_scope.
Local Open Scope list_scope.
Local Open Scope Z_scope.

Set Implicit Arguments.
Set Warnings "-register-all".

(** ** Keys, numbers and array reads *)

(** Keys are stored with [keyEncoding: 'utf8'], so a key is a string;
    values are buffers, modelled by their content. *)
Definition Key := string.
Definition Data := string.

(** [lowerBound] and [upperBound] hold a key or the symbol [kNone]. *)
Inductive bound : Type :=
| kNone
| Bound (k : Key).

(** The result of an arithmetic expression: a number or [NaN]. *)
Inductive number : Type :=
| Num (z : Z)
| NaN.

(** [cmp > 0] and [cmp < 0]: both are false on [NaN]. *)
Definition gt0 (c : number) : bool :=
  match c with Num z => 0 <? z | NaN => false end.
Definition lt0 (c : number) : bool :=
  match c with Num z => z <? 0 | NaN => false end.

(** [ar[i]]: [None] is [undefined], the result of a read outside the
    array. *)
Definition index {A : Type} (ar : list A) (i : Z) : option A :=
  if i <? 0 then None else nth_error ar (Z.to_nat i).

(** [ar.length] *)
Definition len {A : Type} (ar : list A) : Z := Z.of_nat (List.length ar).

(** [ToInt32], applied by [>>] to its left operand. *)
Definition toInt32 (z : Z) : Z := (z + 2 ^ 31) mod 2 ^ 32 - 2 ^ 31.

(** [a >> b] on integers. *)
Definition sar (a b : Z) : Z := Z.shiftr (toInt32 a) b.

(** ** compare

    [a] is a string for every caller but [parseBounds], which may pass
    the symbol [kNone]; [b] is an array element.
    - two strings compare by code units;
    - a string against [undefined]: both [<] and [>] are false, so 0;
    - [kNone] is not a string, its [byteLength] is [undefined], the
      minimum is [NaN], the loop does not run and the difference of the
      two [undefined] lengths is [NaN].  (Reading [byteLength] of an
      [undefined] [b] would raise; [binarySearch] only reads inside the
      array, see [binarySearch_loop_terminates].) *)
Definition compare (a : bound) (b : option Key) : number :=
  match a, b with
  | Bound a, Some b =>
      Num (if String.ltb a b then -1 else if String.ltb b a then 1 else 0)
  | Bound _, None => Num 0
  | kNone, _ => NaN
  end.

(** ** binarySearch

    The [while (m <= n)] loop; [fuel] bounds the number of iterations,
    [None] means the fuel ran out (it never does from [binarySearch],
    see [binarySearch_loop_terminates]). *)
Fixpoint binarySearch_loop (fuel : nat) (ar : list Key) (el : bound)
    (m n : Z) : option Z :=
  if m <=? n then
    match fuel with
    | O => None
    | S fuel' =>
        let k := sar (n + m) 1 in
        let cmp := compare el (index ar k) in
        if gt0 cmp then binarySearch_loop fuel' ar el (k + 1) n
        else if lt0 cmp then binarySearch_loop fuel' ar el m (k - 1)
        else Some k
    end
  else Some (- m - 1).

Definition binarySearch (ar : list Key) (el : bound) : Z :=
  match binarySearch_loop (S (List.length ar)) ar el 0 (len ar - 1) with
  | Some r => r
  | None => -1
  end.

(** ** Array.prototype.sort and splice *)

(** [sort(compare)]: the comparator is consulted on pairs of keys; the
    result is the stable sorted arrangement. *)
Fixpoint sort_insert (x : Key) (l : list Key) : list Key :=
  match l with
  | [] => [x]
  | y :: l' =>
      if gt0 (compare (Bound x) (Some y)) then y :: sort_insert x l'
      else x :: l
  end.

Definition sort (l : list Key) : list Key := fold_right sort_insert [] l.

(** [ar.splice(start, deleteCount)], the removed elements: a negative
    [start] counts from the end, both arguments are clamped to the
    array. *)
Definition splice {A : Type} (ar : list A) (start deleteCount : Z) : list A :=
  let actualStart :=
    if start <? 0 then Z.max (len ar + start) 0 else Z.min start (len ar) in
  let actualDeleteCount :=
    Z.min (Z.max deleteCount 0) (len ar - actualStart) in
  firstn (Z.to_nat actualDeleteCount) (skipn (Z.to_nat actualStart) ar).

(** ** parseBounds *)

(** The range options of an iterator: ['gt' in options] is
    [gt <> None]. *)
Record Options : Type := {
  reverse : bool;
  gt : option Key;
  gte : option Key;
  lt : option Key;
  lte : option Key
}.

Definition has {A : Type} (o : option A) : bool :=
  match o with Some _ => true | None => false end.

Record Bounds : Type := {
  start : Z;
  end_ : Z;
  lowerBound : bound;
  upperBound : bound
}.

Definition is_kNone (b : bound) : bool :=
  match b with kNone => true | Bound _ => false end.

(** [c1 ? v1 : c2 ? v2 : kNone] *)
Definition pick (o1 o2 : option Key) : bound :=
  match o1, o2 with
  | Some v, _ => Bound v
  | None, Some v => Bound v
  | None, None => kNone
  end.

Definition parseBounds (keys : list Key) (options : Options) : Bounds :=
  if negb (reverse options) then
    let lowerBound := pick (gte options) (gt options) in
    let upperBound := pick (lte options) (lt options) in
    let start :=
      if is_kNone upperBound then 0
      else
        let start := binarySearch keys upperBound in
        if start <? 0 then
          if start =? -1 then 0 else - start
        else
          if has (gt options) then start + 1 else start in
    let end_ :=
      if negb (is_kNone upperBound) then
        let end_ := binarySearch keys upperBound in
        if end_ <? 0 then
          if end_ =? -1 then len keys - 1 else - end_ - 1
        else
          if has (lt options) then end_ - 1 else end_
      else len keys - 1 in
    {| start := start; end_ := end_;
       lowerBound := lowerBound; upperBound := upperBound |}
  else
    let lowerBound := pick (lte options) (lt options) in
    let upperBound := pick (gte options) (gt options) in
    let start :=
      if is_kNone lowerBound then len keys - 1
      else
        let start := binarySearch keys upperBound in
        let start :=
          if start <? 0 then
            if start =? -1 then len keys - 1 else - start - 1
          else start in
        if has (lt options) then start - 1 else start in
    let end_ :=
      if negb (is_kNone upperBound) then
        let end_ := binarySearch keys upperBound in
        let end_ :=
          if end_ <? 0 then
            if end_ =? -1 then len keys - 1 else Z.abs end_
          else end_ in
        if has (gt options) then end_ + 1 else end_
      else len keys - 1 in
    {| start := start; end_ := end_;
       lowerBound := lowerBound; upperBound := upperBound |}.

(** ** Values, errors and effects *)

Inductive error : Type :=
| NotFound                      (* new Error('NotFound') *)
| TypeError                     (* raised by the runtime *)
| CacheError (code : string).   (* a rejection of the content store *)

(** The values handed to callbacks.  [info d] is the object
    [cacache.get] resolves with; the code reads only its [data]. *)
Inductive value : Type :=
| undefined
| null
| str (s : string)
| buf (d : Data)
| info (d : Data)
| arr (l : list value).

Definition of_key (k : option Key) : value :=
  match k with Some k => str k | None => undefined end.

(** [!v] *)
Definition falsy (v : value) : bool :=
  match v with
  | undefined | null => true
  | str s => String.eqb s ""
  | buf _ | info _ | arr _ => false
  end.

(** What the content store is asked to do. *)
Inductive io_event : Type :=
| Ls (location : string)
| Get (location : option string) (key : Key)
| Put (location : string) (key : Key) (v : Data)
| RmContent (location : string) (key : Key).

(** What the caller of an operation observes: its callback invoked
    with [(err, ...args)], or an exception nobody handles (the callback
    is then not invoked). *)
Inductive call : Type :=
| Called (err : option error) (args : list value)
| Uncaught (e : error).

(** How a piece of code ends: normally, by raising (for a promise: by
    rejecting), or, for the model only, because a loop used up its
    iteration budget.  No operation ends the last way, see
    [run_ops_total]. *)
Inductive completion (A : Type) : Type :=
| Normal (a : A)
| Throw (e : error)
| OutOfFuel.
Arguments Throw {A} e.
Arguments OutOfFuel {A}.

(** ** The effect monad

    [self] is the object the code mutates ([this]); [io] and [calls]
    grow at their end, in the order the events happen. *)
Record world (S : Type) : Type := {
  self : S;
  io : list io_event;
  calls : list call
}.

Definition M (S A : Type) : Type := world S -> completion A * world S.

Section Monad.
Context {S : Type}.

Definition ret {A} (a : A) : M S A := fun w => (Normal a, w).

Definition bind {A B} (m : M S A) (k : A -> M S B) : M S B :=
  fun w =>
    match m w with
    | (Normal a, w') => k a w'
    | (Throw e, w') => (Throw e, w')
    | (OutOfFuel, w') => (OutOfFuel, w')
    end.

Definition throw {A} (e : error) : M S A := fun w => (Throw e, w).

Definition out_of_fuel {A} : M S A := fun w => (OutOfFuel, w).

(** [try m catch (e) h], and also [m.catch(h)] on a promise. *)
Definition catch {A} (m : M S A) (h : error -> M S A) : M S A :=
  fun w =>
    match m w with
    | (Throw e, w') => h e w'
    | r => r
    end.

Definition get : M S S := fun w => (Normal (self w), w).

Definition modify (f : S -> S) : M S unit :=
  fun w =>
    (Normal tt, {| self := f (self w); io := io w; calls := calls w |}).

Definition emit (e : io_event) : M S unit :=
  fun w =>
    (Normal tt, {| self := self w; io := io w ++ [e]; calls := calls w |}).

Definition deliver (c : call) : M S unit :=
  fun w =>
    (Normal tt, {| self := self w; io := io w; calls := calls w ++ [c] |}).

(** [nextTick(fn, ...args)]: [fn] runs on its own; what it raises is
    handled by nobody. *)
Definition nextTick (m : M S unit) : M S unit :=
  catch m (fun e => deliver (Uncaught e)).

(** A promise chain whose result nobody awaits: its rejection is an
    unhandled rejection. *)
Definition floating (m : M S unit) : M S unit :=
  catch m (fun e => deliver (Uncaught e)).

(** The caller's callback. *)
Definition user (err : option error) (args : list value) : M S unit :=
  deliver (Called err args).
End Monad.

Notation "x <- m ;; k" := (bind m (fun x => k))
  (at level 61, m at next level, right associativity).
Notation "m ;; k" := (bind m (fun _ => k))
  (at level 61, right associativity).

(** ** The content store

    [cacache] is used through four calls; each is a function of its
    arguments at the time of the call.  [kInit] maps over the listing as
    over an array of entries. *)
Record IndexEntry : Type := {
  entry_key : Key;
  integrity : string;
  time : Z
}.

Inductive ls_outcome : Type :=
| Listed (entries : list IndexEntry)
| LsRejected (code : string).

Inductive get_outcome : Type :=
| GetResolved (data : Data)
| GetRejected (code : string).

Record Cacache : Type := {
  cacache_ls : string -> ls_outcome;
  cacache_get : option string -> Key -> get_outcome;
  cacache_put : string -> Key -> Data -> option string;
  cacache_rm_content : string -> Key -> option string
}.

(** The database object: [this[kLocation]], [this[kBatchSize]] and
    [this[kConcurrency]] of [CacacheLevel]. *)
Record Db : Type := {
  db_kLocation : string;
  db_kBatchSize : Z;
  db_kConcurrency : Z
}.

(** ** The cursor *)

(** The options kept by [_seek]: the target and the bound properties
    of the options object, each absent or present with a flag. *)
Record SeekOptions : Type := {
  target : Key;
  seek_gt : option bool;
  seek_gte : option bool;
  seek_lt : option bool;
  seek_lte : option bool
}.

(** [options.gt]: truthy when present and true. *)
Definition truthy (o : option bool) : bool :=
  match o with Some b => b | None => false end.

(** A promise that has settled. *)
Inductive settled (A : Type) : Type :=
| Fulfilled (a : A)
| Rejected (e : error).
Arguments Rejected {A} e.

(** The fields of an iterator that the code reads.  [kLocation] is read
    by [kNext], [kNextv] and [kAll] but [kInit] does not assign it, so it
    is [undefined] ([None]).  [kDone] starts [undefined], which is read
    as false.  [kIndexPromise] is the settled index promise;
    [kIndexKeys] is assigned when it fulfils and is not read before. *)
Record Iter : Type := {
  kCursor : Z;
  kDone : bool;
  kReverse : bool;
  kBatchSize : Z;
  kConcurrency : Z;
  kLocation : option string;
  kIndexKeys : list Key;
  kIndexPromise : settled unit;
  kSeekOptions : option SeekOptions
}.

Definition setCursor (c : Z) (it : Iter) : Iter :=
  {| kCursor := c; kDone := kDone it; kReverse := kReverse it;
     kBatchSize := kBatchSize it; kConcurrency := kConcurrency it;
     kLocation := kLocation it; kIndexKeys := kIndexKeys it;
     kIndexPromise := kIndexPromise it; kSeekOptions := kSeekOptions it |}.

Definition setDone (d : bool) (it : Iter) : Iter :=
  {| kCursor := kCursor it; kDone := d; kReverse := kReverse it;
     kBatchSize := kBatchSize it; kConcurrency := kConcurrency it;
     kLocation := kLocation it; kIndexKeys := kIndexKeys it;
     kIndexPromise := kIndexPromise it; kSeekOptions := kSeekOptions it |}.

Definition setSeekOptions (o : option SeekOptions) (it : Iter) : Iter :=
  {| kCursor := kCursor it; kDone := kDone it; kReverse := kReverse it;
     kBatchSize := kBatchSize it; kConcurrency := kConcurrency it;
     kLocation := kLocation it; kIndexKeys := kIndexKeys it;
     kIndexPromise := kIndexPromise it; kSeekOptions := o |}.

Definition kAdvanceNext (it : Iter) : value * Iter :=
  if kDone it then (null, it)
  else
    let keys := kIndexKeys it in
    let cursor := kCursor it in
    if cursor <? len keys then
      let key := of_key (index keys cursor) in
      let cursor := cursor + 1 in
      (key, setDone (len keys <=? cursor) (setCursor cursor it))
    else (null, setDone true it).

Definition kAdvancePrev (it : Iter) : value * Iter :=
  if kDone it then (null, it)
  else
    let cursor := kCursor it in
    if 0 <? cursor then
      let key := of_key (index (kIndexKeys it) cursor) in
      let cursor := cursor - 1 in
      (key, setDone (cursor =? 0) (setCursor cursor it))
    else (null, setDone true it).

(** [this[kAdvance]], bound by [kInit] from [this[kReverse]]. *)
Definition kAdvance : M Iter value :=
  it <- get ;;
  let (key, it') :=
    if kReverse it then kAdvancePrev it else kAdvanceNext it in
  modify (fun _ => it') ;;
  ret key.

Definition _seek (target : Key) (gt gte lt lte : option bool) : M Iter unit :=
  modify (setSeekOptions
            (Some {| target := target; seek_gt := gt; seek_gte := gte;
                     seek_lt := lt; seek_lte := lte |})).

(** The [then] callback of [kAwaitIndex] that handles a seek. *)
Definition handleSeek (options : SeekOptions) (it : Iter) : Iter :=
  let target := Bound (target options) in
  let keys := kIndexKeys it in
  if negb (kReverse it) then
    let beforeStart := lt0 (compare target (index keys 0)) in
    let afterEnd := gt0 (compare target (index keys (len keys - 1))) in
    if beforeStart then
      if has (seek_gt options) || has (seek_gte options)
      then setCursor 0 (setDone false it)
      else setCursor (len keys) (setDone true it)
    else if afterEnd then
      if has (seek_lt options) || has (seek_lte options)
      then setCursor 0 (setDone false it)
      else setCursor (-1) (setDone true it)
    else
      let pos := binarySearch keys target in
      if pos <? 0 then
        if pos =? -1 then
          let pos :=
            if truthy (seek_gt options) || truthy (seek_gte options)
            then 0 else len keys in
          setDone (len keys <=? pos) (setCursor pos it)
        else
          let pos := - pos in
          setDone (len keys <=? pos) (setCursor pos it)
      else
        let pos := if has (seek_gt options) then pos + 1 else pos in
        setDone (len keys <=? pos) (setCursor pos it)
  else
    let beforeStart := gt0 (compare target (index keys (len keys - 1))) in
    let afterEnd := lt0 (compare target (index keys 0)) in
    if beforeStart then
      if has (seek_lt options) || has (seek_lte options)
      then setCursor (len keys - 1) (setDone false it)
      else setCursor (-1) (setDone true it)
    else if afterEnd then
      if has (seek_gt options) || has (seek_gte options)
      then setCursor (len keys - 1) (setDone false it)
      else setCursor 0 (setDone true it)
    else
      let pos := binarySearch keys target in
      if pos <? 0 then
        if pos =? -1 then
          if truthy (seek_lt options) || truthy (seek_lte options)
          then setCursor (len keys - 1) (setDone false it)
          else setCursor (-1) (setDone true it)
        else setCursor (- pos - 1) it
      else
        setCursor (if has (seek_gt options) then pos - 1 else pos) it.

(** [await p] for a settled promise. *)
Definition await {S A : Type} (p : settled A) : M S A :=
  match p with
  | Fulfilled a => ret a
  | Rejected e => throw e
  end.

Definition kAwaitIndex : M Iter unit :=
  it <- get ;;
  match kSeekOptions it with
  | None => await (kIndexPromise it)
  | Some options =>
      modify (setSeekOptions None) ;;
      catch (await (kIndexPromise it) ;; modify (handleSeek options))
            (fun err => modify (fun it => setCursor (-1) (setDone true it)))
  end.

(** ** Reading properties of a value *)

Section Reads.
Context {S : Type}.

(** [v.data] *)
Definition get_data (v : value) : M S value :=
  match v with
  | undefined | null => throw TypeError
  | info d => ret (buf d)
  | str _ | buf _ | arr _ => ret undefined
  end.

(** [v[i]] *)
Definition elem (v : value) (i : Z) : M S value :=
  match v with
  | undefined | null => throw TypeError
  | arr l =>
      ret (match index l i with Some x => x | None => undefined end)
  | str s =>
      ret (if i <? 0 then undefined
           else match String.get (Z.to_nat i) s with
                | Some c => str (String c EmptyString)
                | None => undefined
                end)
  | buf _ | info _ => ret undefined
  end.

(** [p-map]: the mapper is applied to the inputs and the results come
    in input order; the first rejection rejects the whole.  The
    mappers are run here one after the other in input order: this is
    the schedule in which every request settles before the next is
    made.  When no mapper rejects, the requests and the result are
    those of every schedule; when one rejects, the requests that
    [p-map] has started by then are not recorded, and which rejection
    is reported, when several mappers reject, is that of this
    schedule. *)
Fixpoint pMap {A B : Type} (input : list A) (mapper : A -> M S B)
    : M S (list B) :=
  match input with
  | [] => ret []
  | x :: xs =>
      y <- mapper x ;;
      ys <- pMap xs mapper ;;
      ret (y :: ys)
  end.

(** [values.map(value => value[1])]: only an array has [map] here. *)
Definition map_elem1 (values : value) : M S value :=
  match values with
  | arr l => r <- pMap l (fun value => elem value 1) ;; ret (arr r)
  | _ => throw TypeError
  end.
End Reads.

(** ** Fetching values *)

Section Engine.
Variable cacache : Cacache.

Section Fetch.
Context {S : Type}.

(** [fetch]: the resolved object is truthy, so [data || undefined]
    is the object; [ENOENT] gives [undefined]. *)
Definition fetch (location : option string) (key : Key) : M S value :=
  emit (Get location key) ;;
  match cacache_get cacache location key with
  | GetResolved data => ret (info data)
  | GetRejected code =>
      if String.eqb code "ENOENT" then ret undefined
      else throw (CacheError code)
  end.

Definition getValue (location : option string) (key : Key)
    (callback : option error -> value -> M S unit) : M S unit :=
  floating
    (catch
       (data <- fetch location key ;;
        match data with
        | undefined => callback (Some NotFound) undefined
        | _ => callback None data
        end)
       (fun err => callback (Some err) undefined)).

Definition getMany (location : option string) (keys : list Key)
    (concurrency : Z) (callback : option error -> value -> M S unit)
    : M S unit :=
  (if len keys =? 0 then nextTick (callback None (arr []))
   else ret tt) ;;
  floating
    (catch
       (results <- pMap keys (fun key => fetch location key) ;;
        callback None (arr results))
       (fun err => callback (Some err) undefined)).
End Fetch.

(** ** kInit

    The constructor issues [cacache.ls] and keeps the promise; the
    [then] callback runs before the continuation of any operation,
    which all await that promise, so the iterator is given here with
    the promise settled. *)
Definition kInit (db : Db) (options : Options) : world Iter :=
  let location := db_kLocation db in
  let it :=
    {| kCursor := 0; kDone := false; kReverse := reverse options;
       kBatchSize := db_kBatchSize db;
       kConcurrency := db_kConcurrency db;
       kLocation := None; kIndexKeys := [];
       kIndexPromise := Fulfilled tt; kSeekOptions := None |} in
  let settled :=
    match cacache_ls cacache location with
    | Listed entries =>
        let keys := sort (map entry_key entries) in
        let b := parseBounds keys options in
        {| kCursor := 0; kDone := false; kReverse := reverse options;
           kBatchSize := db_kBatchSize db;
           kConcurrency := db_kConcurrency db;
           kLocation := None;
           kIndexKeys := splice keys (start b) (end_ b - start b + 1);
           kIndexPromise := Fulfilled tt; kSeekOptions := None |}
    | LsRejected code =>
        {| kCursor := 0; kDone := false; kReverse := reverse options;
           kBatchSize := db_kBatchSize db;
           kConcurrency := db_kConcurrency db;
           kLocation := None; kIndexKeys := [];
           kIndexPromise := Rejected (CacheError code);
           kSeekOptions := None |}
    end in
  {| self := settled; io := [Ls location]; calls := [] |}.

(** ** kNext, kNextv, kAll *)

Definition kNext
    (callback : option error -> value -> value -> M Iter unit)
    : M Iter unit :=
  floating
    (catch
       (kAwaitIndex ;;
        key <- kAdvance ;;
        match key with
        | str k =>
            if falsy key then nextTick (callback None undefined undefined)
            else
              it <- get ;;
              getValue (kLocation it) k
                (fun err value =>
                   data <- get_data value ;;
                   nextTick (callback err key data))
        | _ => nextTick (callback None undefined undefined)
        end)
       (fun err => callback (Some err) undefined undefined)).

(** [getKeyBatch]: the body runs once, then again while
    [slice.length < batchSize]; [more] counts those further turns. *)
Fixpoint getKeyBatch_loop (more : nat) (slice : list Key)
    : M Iter (list Key) :=
  key <- kAdvance ;;
  match key with
  | str k =>
      if falsy key then ret slice
      else
        let slice := slice ++ [k] in
        match more with
        | O => ret slice
        | Datatypes.S more' => getKeyBatch_loop more' slice
        end
  | _ => ret slice
  end.

Definition getKeyBatch (batchSize : Z) : M Iter (list Key) :=
  getKeyBatch_loop (Z.to_nat (batchSize - 1)) [].

(** [for (i ...) result.push([keys[i], values[i].data])] *)
Fixpoint push_entries (keys : list Key) (i : Z) (values : value)
    : M Iter (list value) :=
  match keys with
  | [] => ret []
  | k :: ks =>
      v <- elem values i ;;
      d <- get_data v ;;
      rest <- push_entries ks (i + 1) values ;;
      ret (arr [str k; d] :: rest)
  end.

Definition kNextv (size : Z)
    (callback : option error -> value -> M Iter unit) : M Iter unit :=
  floating
    (catch
       (kAwaitIndex ;;
        it <- get ;;
        let location := kLocation it in
        let concurrency := kConcurrency it in
        keys <- getKeyBatch size ;;
        getMany location keys concurrency
          (fun err values =>
             match err with
             | Some e => nextTick (callback (Some e) undefined)
             | None =>
                 result <- push_entries keys 0 values ;;
                 nextTick (callback None (arr result))
             end))
       (fun err => callback (Some err) undefined)).

(** [values.forEach((value, i) => result.push([keys[i], value.data]))] *)
Fixpoint forEach_push (keys : list Key) (i : Z) (values : list value)
    : M Iter (list value) :=
  match values with
  | [] => ret []
  | value :: vs =>
      d <- get_data value ;;
      rest <- forEach_push keys (i + 1) vs ;;
      ret (arr [of_key (index keys i); d] :: rest)
  end.

(** The [loop] closure of [kAll]; each turn is scheduled by
    [nextTick]. *)
Fixpoint kAll_loop (fuel : nat) (location : option string)
    (concurrency batchSize : Z) (result : list value)
    (callback : option error -> value -> M Iter unit) : M Iter unit :=
  match fuel with
  | O => out_of_fuel
  | Datatypes.S fuel' =>
      keys <- getKeyBatch batchSize ;;
      if len keys =? 0 then nextTick (callback None (arr result))
      else
        getMany location keys concurrency
          (fun err values =>
             match err with
             | Some e => callback (Some e) undefined
             | None =>
                 match values with
                 | arr vs =>
                     pushed <- forEach_push keys 0 vs ;;
                     let result := result ++ pushed in
                     if len vs =? 0
                     then nextTick (callback None (arr result))
                     else nextTick (kAll_loop fuel' location concurrency
                                      batchSize result callback)
                 | _ => throw TypeError
                 end
             end)
  end.

(** The number of [kAdvance] calls a cursor can still answer with a
    change of state: every such call lowers it. *)
Definition remaining (it : Iter) : nat :=
  if kDone it then O
  else if kReverse it then Datatypes.S (Z.to_nat (kCursor it))
  else Datatypes.S (Z.to_nat (len (kIndexKeys it) - kCursor it)).

Definition kAll (callback : option error -> value -> M Iter unit)
    : M Iter unit :=
  floating
    (catch
       (kAwaitIndex ;;
        it <- get ;;
        if kDone it then nextTick (callback None undefined)
        else
          nextTick (kAll_loop (Datatypes.S (remaining it)) (kLocation it)
                      (kConcurrency it) (kBatchSize it) [] callback))
       (fun err => callback (Some err) undefined)).

(** ** The three iterator classes *)

Definition is_null (v : value) : bool :=
  match v with null => true | _ => false end.
End Engine.

Module Iterator.
Definition _next (cacache : Cacache) : M Iter unit :=
  kNext cacache
    (fun err key value =>
       match err with
       | Some e => nextTick (user (Some e) [])
       | None => nextTick (user None [key; value])
       end).

Definition _nextv (cacache : Cacache) (size : Z) : M Iter unit :=
  kNextv cacache size
    (fun err values =>
       match err with
       | Some e => nextTick (user (Some e) [])
       | None => nextTick (user None [values])
       end).

Definition _all (cacache : Cacache) : M Iter unit :=
  kAll cacache
    (fun err values =>
       match err with
       | Some e => nextTick (user (Some e) [])
       | None => nextTick (user None [values])
       end).
End Iterator.

Module KeyIterator.
Definition _next : M Iter unit :=
  floating
    (catch
       (kAwaitIndex ;;
        key <- kAdvance ;;
        nextTick (user None [key]))
       (fun err => user (Some err) [])).

(** [while (!this[kDone] && keys.length < size)]: [room] is the
    number of keys that still fit. *)
Fixpoint nextv_loop (room : nat) (keys : list value)
    : M Iter (list value) :=
  match room with
  | O => ret keys
  | S room' =>
      it <- get ;;
      if kDone it then ret keys
      else
        key <- kAdvance ;;
        if is_null key then ret keys
        else nextv_loop room' (keys ++ [key])
  end.

Definition _nextv (size : Z) : M Iter unit :=
  floating
    (catch
       (kAwaitIndex ;;
        it <- get ;;
        if kDone it then nextTick (user None [])
        else
          keys <- nextv_loop (Z.to_nat size) [] ;;
          nextTick (user None [arr keys]))
       (fun err => user (Some err) [])).

(** [while (!this[kDone])] *)
Fixpoint all_loop (fuel : nat) (keys : list value)
    : M Iter (list value) :=
  it <- get ;;
  if kDone it then ret keys
  else
    match fuel with
    | O => out_of_fuel
    | S fuel' =>
        key <- kAdvance ;;
        if is_null key then ret keys
        else all_loop fuel' (keys ++ [key])
    end.

Definition _all : M Iter unit :=
  floating
    (catch
       (kAwaitIndex ;;
        it <- get ;;
        keys <- all_loop (remaining it) [] ;;
        nextTick (user None [arr keys]))
       (fun err => user (Some err) [])).
End KeyIterator.

Module ValueIterator.
Definition _next (cacache : Cacache) : M Iter unit :=
  kNext cacache
    (fun err key value =>
       match err with
       | Some e => nextTick (user (Some e) [])
       | None => nextTick (user None [value])
       end).

Definition _nextv (cacache : Cacache) (size : Z) : M Iter unit :=
  kNextv cacache size
    (fun err values =>
       match err with
       | Some e => nextTick (user (Some e) [])
       | None =>
           result <- map_elem1 values ;;
           nextTick (user None [result])
       end).

Definition _all (cacache : Cacache) : M Iter unit :=
  kAll cacache
    (fun err values =>
       match err with
       | Some e => nextTick (user (Some e) [])
       | None =>
           result <- map_elem1 values ;;
           nextTick (user None [result])
       end).
End ValueIterator.

(** ** CacacheLevel._batch *)

Record Operation : Type := {
  op_type : string;
  op_key : Key;
  op_value : Data
}.

(** The [while] loop that collects the operations of one type: the run
    at the front of the list and what follows it. *)
Fixpoint span (lastOpType : string) (operations : list Operation)
    : list Operation * list Operation :=
  match operations with
  | [] => ([], [])
  | op :: rest =>
      if String.eqb (op_type op) lastOpType then
        let (ops, after) := span lastOpType rest in (op :: ops, after)
      else ([], operations)
  end.

Module CacacheLevel.
Section Batch.
Variable cacache : Cacache.

Definition handlePut (operations : list Operation) : M Db (list unit) :=
  db <- get ;;
  pMap operations
    (fun operation =>
       let cachePath := db_kLocation db in
       emit (Put cachePath (op_key operation) (op_value operation)) ;;
       match cacache_put cacache cachePath (op_key operation)
               (op_value operation) with
       | None => ret tt
       | Some code => throw (CacheError code)
       end).

Definition handleDel (operations : list Operation) : M Db (list unit) :=
  db <- get ;;
  pMap operations
    (fun operation =>
       let cachePath := db_kLocation db in
       emit (RmContent cachePath (op_key operation)) ;;
       match cacache_rm_content cacache cachePath (op_key operation) with
       | None => ret tt
       | Some code => throw (CacheError code)
       end).

(** The [loop] closure of [_batch]; [todo] is [operations] from
    [idx] on. *)
Fixpoint loop (fuel : nat) (todo : list Operation)
    (callback : option error -> M Db unit) : M Db unit :=
  match todo with
  | [] => nextTick (callback None)
  | first :: _ =>
      match fuel with
      | O => out_of_fuel
      | S fuel' =>
          let lastOpType := op_type first in
          let (ops, rest) := span lastOpType todo in
          if String.eqb lastOpType "put" then
            catch (handlePut ops ;; loop fuel' rest callback)
                  (fun err => callback (Some err))
          else if String.eqb lastOpType "del" then
            catch (handleDel ops ;; loop fuel' rest callback)
                  (fun err => callback (Some err))
          else nextTick (callback None)
      end
  end.

Definition _batch (operations : list Operation) : M Db unit :=
  nextTick (loop (List.length operations) operations
              (fun err => user err [])).
End Batch.

Section Facade.
Variable cacache : Cacache.

Definition _get (key : Key) : M Db unit :=
  db <- get ;;
  let cachePath := db_kLocation db in
  getValue cacache (Some cachePath) key
    (fun err entry =>
       match err with
       | Some e => nextTick (user (Some e) [])
       | None =>
           data <- get_data entry ;;
           nextTick (user None [data])
       end).

(** The caller's callback is handed to [getMany] as it is. *)
Definition _getMany (keys : list Key) : M Db unit :=
  db <- get ;;
  let cachePath := db_kLocation db in
  let concurrency := db_kConcurrency db in
  getMany cacache (Some cachePath) keys concurrency
    (fun err values =>
       match err with
       | Some e => user (Some e) []
       | None => user None [values]
       end).

Definition _put (key : Key) (v : Data) : M Db unit :=
  db <- get ;;
  let cachePath := db_kLocation db in
  floating
    (catch
       (emit (Put cachePath key v) ;;
        match cacache_put cacache cachePath key v with
        | None => ret tt
        | Some code => throw (CacheError code)
        end ;;
        nextTick (user None []))
       (fun err => nextTick (user (Some err) []))).
End Facade.
End CacacheLevel.

(** ** A cursor's lifetime: construction, then operations *)

Inductive flavor : Type := Entries | Keys | Values.

Inductive operation : Type :=
| Next
| Nextv (size : Z)
| All
| Seek (target : Key) (gt gte lt lte : option bool).

Definition run_op (cacache : Cacache) (f : flavor) (o : operation)
    : M Iter unit :=
  match o, f with
  | Next, Entries => Iterator._next cacache
  | Next, Keys => KeyIterator._next
  | Next, Values => ValueIterator._next cacache
  | Nextv size, Entries => Iterator._nextv cacache size
  | Nextv size, Keys => KeyIterator._nextv size
  | Nextv size, Values => ValueIterator._nextv cacache size
  | All, Entries => Iterator._all cacache
  | All, Keys => KeyIterator._all
  | All, Values => ValueIterator._all cacache
  | Seek target gt gte lt lte, _ => _seek target gt gte lt lte
  end.

Fixpoint run_ops (cacache : Cacache) (f : flavor) (ops : list operation)
    : M Iter unit :=
  match ops with
  | [] => ret tt
  | o :: ops' => run_op cacache f o ;; run_ops cacache f ops'
  end.

Definition lifetime (cacache : Cacache) (db : Db) (options : Options)
    (f : flavor) (ops : list operation) : completion unit * world Iter :=
  run_ops cacache f ops (kInit cacache db options).

(** ** What the properties speak about *)

(** The entries a callback invocation hands to the caller: the
    elements of an array argument, or a defined argument itself. *)
Definition items (v : value) : list value :=
  match v with
  | undefined | null => []
  | arr l => l
  | str _ | buf _ | info _ => [v]
  end.

Definition delivered (c : call) : list value :=
  match c with
  | Called _ args => flat_map items args
  | Uncaught _ => []
  end.

Definition is_seek (o : operation) : bool :=
  match o with Seek _ _ _ _ _ => true | _ => false end.

(** The number of listings among the requests made to the store. *)
Fixpoint count_ls (l : list io_event) : nat :=
  match l with
  | [] => O
  | Ls _ :: l' => S (count_ls l')
  | _ :: l' => count_ls l'
  end.

(** The spec's reading of the lazy snapshot: nothing is listed before
    the first operation. *)
Definition listing_deferred (cacache : Cacache) (db : Db)
    (options : Options) : Prop :=
  count_ls (io (kInit cacache db options)) = O.

(** The window invariant of the spec. *)
Definition window_invariant (keys : list Key) (b : Bounds) : Prop :=
  0 <= start b /\ start b <= end_ b + 1 /\ end_ b + 1 <= len keys.

(** What an operation may do to the world once the index is awaited:
    it keeps the snapshot, the direction and the index promise, does not
    raise [remaining], and asks the store for no listing. *)
Definition frame (s s' : Iter) : Prop :=
  kIndexKeys s' = kIndexKeys s /\ kReverse s' = kReverse s
  /\ kIndexPromise s' = kIndexPromise s.

Definition no_listing (l l' : list io_event) : Prop :=
  exists ext, l' = l ++ ext /\ count_ls ext = O.

Definition step_ok (w w' : world Iter) : Prop :=
  frame (self w) (self w')
  /\ (remaining (self w') <= remaining (self w))%nat
  /\ no_listing (io w) (io w').

Definition sound_at {A : Type} (m : M Iter A) (w : world Iter) : Prop :=
  fst (m w) <> OutOfFuel /\ step_ok w (snd (m w)).

(** [m] is sound at every world reachable from [w]. *)
Definition sound_from {A : Type} (w : world Iter) (m : M Iter A) : Prop :=
  forall w', step_ok w w' -> sound_at m w'.

Definition sound {A : Type} (m : M Iter A) : Prop :=
  forall w, sound_at m w.

(** What holds from one operation to the next, seeks included: a seek
    may move the cursor back, but the snapshot stays. *)
Definition lifetime_ok (w w' : world Iter) : Prop :=
  frame (self w) (self w') /\ no_listing (io w) (io w').

(** ** Stores and databases used in the examples *)

(** A store holding the given entries, listed in the given order; a
    value is found whatever the location argument is. *)
Definition store_of (kvs : list (Key * Data)) : Cacache :=
  {| cacache_ls := fun _ =>
       Listed (map (fun kv => {| entry_key := fst kv; integrity := "sha512";
                                 time := 0 |}) kvs);
     cacache_get := fun _ k =>
       match find (fun kv => String.eqb (fst kv) k) kvs with
       | Some kv => GetResolved (snd kv)
       | None => GetRejected "ENOENT"
       end;
     cacache_put := fun _ _ _ => None;
     cacache_rm_content := fun _ _ => None |}.

(** A store that lists the given keys but whose values are all gone at
    fetch time. *)
Definition store_vanished (keys : list Key) : Cacache :=
  {| cacache_ls := fun _ =>
       Listed (map (fun k => {| entry_key := k; integrity := "sha512";
                                time := 0 |}) keys);
     cacache_get := fun _ _ => GetRejected "ENOENT";
     cacache_put := fun _ _ _ => None;
     cacache_rm_content := fun _ _ => None |}.

Definition store_abcde : Cacache :=
  store_of [("e", "5"); ("a", "1"); ("d", "4"); ("b", "2"); ("c", "3")].

Definition store_ace : Cacache :=
  store_of [("a", "1"); ("c", "3"); ("e", "5")].

Definition store_b : Cacache := store_of [("b", "2")].

Definition store_ab : Cacache := store_of [("a", "1"); ("b", "2")].

Definition db0 : Db :=
  {| db_kLocation := "/db"; db_kBatchSize := 50; db_kConcurrency := 4 |}.

Definition no_range (reverse : bool) : Options :=
  {| reverse := reverse; gt := None; gte := None; lt := None; lte := None |}.

(** [{gt: "a"}], the range of the README's example *)
Definition gt_a : Options :=
  {| reverse := false; gt := Some "a"; gte := None; lt := None;
     lte := None |}.

(** [{lte: "z"}] *)
Definition lte_z : Options :=
  {| reverse := false; gt := None; gte := None; lt := None;
     lte := Some "z" |}.

(** A batch whose first operation has an unknown type. *)
Definition batch_foo_put : list Operation :=
  [ {| op_type := "foo"; op_key := "a"; op_value := "1" |};
    {| op_type := "put"; op_key := "b"; op_value := "2" |} ].

(** [{gt: "b", lte: "d"}] *)
Definition gt_b_lte_d (reverse : bool) : Options :=
  {| reverse := reverse; gt := Some "b"; gte := None; lt := None;
     lte := Some "d" |}.

(** ** Further notions used by the properties *)

(** Keys in ascending order, equal neighbours allowed. *)
Fixpoint ascending (l : list Key) : bool :=
  match l with
  | [] => true
  | a :: t =>
      match t with
      | [] => true
      | b :: _ => String.leb a b && ascending t
      end
  end.

(** What [fetch] answers for a key: the stored object or [undefined];
    [readable] says that the store does not reject the read for another
    reason than a missing entry, [present] that the value is there. *)
Definition fetched (cacache : Cacache) (location : option string)
    (k : Key) : value :=
  match cacache_get cacache location k with
  | GetResolved d => info d
  | GetRejected _ => undefined
  end.

Definition readable (cacache : Cacache) (location : option string)
    (k : Key) : bool :=
  match cacache_get cacache location k with
  | GetResolved _ => true
  | GetRejected code => String.eqb code "ENOENT"
  end.

Definition present (cacache : Cacache) (location : option string)
    (k : Key) : bool :=
  match cacache_get cacache location k with
  | GetResolved _ => true
  | GetRejected _ => false
  end.

(** The data of the stored object of a key, and the pair
    [[key, value.data]] an entry cursor delivers for it. *)
Definition value_of (cacache : Cacache) (location : option string)
    (k : Key) : value :=
  match cacache_get cacache location k with
  | GetResolved d => buf d
  | GetRejected _ => undefined
  end.

Definition entry_of (cacache : Cacache) (location : option string)
    (k : Key) : value :=
  arr [str k; value_of cacache location k].

Definition nonempty (k : Key) : bool := negb (String.eqb k "").

(** A forward cursor whose index is ready, at position [c]. *)
Definition forward_at (it : Iter) (c : Z) (d : bool) : Iter :=
  setDone d (setCursor c it).

Definition forward_ready (it : Iter) : Prop :=
  kReverse it = false /\ kSeekOptions it = None
  /\ kIndexPromise it = Fulfilled tt
  /\ 0 <= kCursor it <= len (kIndexKeys it)
  /\ (kDone it = true -> kCursor it = len (kIndexKeys it)).

(** The world of a forward cursor at position [c]. *)
Definition at_position (it : Iter) (c : Z) (d : bool)
    (io0 : list io_event) (calls0 : list call) : world Iter :=
  {| self := forward_at it c d; io := io0; calls := calls0 |}.

(** The keys a forward cursor has not passed yet. *)
Definition ahead (it : Iter) : list Key :=
  skipn (Z.to_nat (kCursor it)) (kIndexKeys it).

(** Batch operations: the types [loop] knows, the request each sends
    and whether the store accepts it. *)
Definition known (op : Operation) : bool :=
  String.eqb (op_type op) "put" || String.eqb (op_type op) "del".

Definition request_of (cachePath : string) (op : Operation) : io_event :=
  if String.eqb (op_type op) "put"
  then Put cachePath (op_key op) (op_value op)
  else RmContent cachePath (op_key op).

Definition outcome_of (cacache : Cacache) (cachePath : string)
    (op : Operation) : option string :=
  if String.eqb (op_type op) "put"
  then cacache_put cacache cachePath (op_key op) (op_value op)
  else cacache_rm_content cacache cachePath (op_key op).

Definition accepted (cacache : Cacache) (cachePath : string)
    (op : Operation) : bool :=
  match outcome_of cacache cachePath op with
  | None => true
  | Some _ => false
  end.

(** What each operation hands to its caller on a cursor that is done
    and has no seek pending, by the state of the index promise: the
    callback invocations, in order, or the TypeError that is raised
    outside every handler. *)
Definition exhausted_calls (pr : settled unit) (f : flavor) (o : operation)
    : list call :=
  match pr with
  | Rejected e => if is_seek o then [] else [Called (Some e) []]
  | Fulfilled _ =>
      match o, f with
      | Next, Entries => [Called None [undefined; undefined]]
      | Next, Keys => [Called None [null]]
      | Next, Values => [Called None [undefined]]
      | Nextv _, Keys => [Called None []]
      | Nextv _, (Entries | Values) =>
          [Called None [arr []]; Called None [arr []]]
      | All, Entries => [Called None [undefined]]
      | All, Keys => [Called None [arr []]]
      | All, Values => [Uncaught TypeError]
      | Seek _ _ _ _ _, _ => []
      end
  end.

(** A store whose listing is rejected. *)
Definition store_unlistable : Cacache :=
  {| cacache_ls := fun _ => LsRejected "EACCES";
     cacache_get := fun _ _ => GetRejected "ENOENT";
     cacache_put := fun _ _ _ => None;
     cacache_rm_content := fun _ _ => None |}.

(** A store that refuses to write the key b. *)
Definition store_readonly_b : Cacache :=
  {| cacache_ls := fun _ => Listed [];
     cacache_get := fun _ _ => GetRejected "ENOENT";
     cacache_put := fun _ k _ =>
       if String.eqb k "b" then Some "EACCES" else None;
     cacache_rm_content := fun _ _ => None |}.

(** * Properties *)

(** ** The binary search terminates and reads inside the array *)

Lemma toInt32_small (z : Z) : 0 <= z < 2 ^ 31 -> toInt32 z = z.
Proof.
  intros H. unfold toInt32.
  rewrite Z.mod_small by lia. lia.
Qed.

Lemma sar_1_mid (m n : Z) :
  0 <= m -> m <= n -> n < 2 ^ 30 -> m <= sar (n + m) 1 <= n.
Proof.
  intros Hm Hmn Hn. unfold sar.
  rewrite toInt32_small by lia.
  rewrite Z.shiftr_div_pow2 by lia.
  change (2 ^ 1) with 2.
  split.
  - apply Z.div_le_lower_bound; lia.
  - apply Z.div_le_upper_bound; lia.
Qed.

Lemma index_in_range {A : Type} (ar : list A) (i : Z) :
  0 <= i < len ar -> exists x, index ar i = Some x.
Proof.
  intros [H0 H1]. unfold index, len in *.
  destruct (Z.ltb_spec i 0); [lia|].
  destruct (nth_error ar (Z.to_nat i)) eqn:E; [eauto|].
  apply nth_error_None in E. lia.
Qed.

Lemma binarySearch_probe_in_range (ar : list Key) (m n : Z) :
  0 <= m -> m <= n -> n < len ar -> len ar < 2 ^ 30 ->
  exists x, index ar (sar (n + m) 1) = Some x.
Proof.
  intros Hm Hmn Hn Hlen.
  apply index_in_range.
  pose proof (sar_1_mid Hm Hmn ltac:(lia)). lia.
Qed.

Lemma binarySearch_loop_terminates (ar : list Key) (el : bound) :
  len ar < 2 ^ 30 ->
  forall (fuel : nat) (m n : Z),
    0 <= m -> n < len ar -> n - m + 1 <= Z.of_nat fuel ->
    exists r, binarySearch_loop fuel ar el m n = Some r.
Proof.
  intros Hlen fuel.
  induction fuel as [|fuel IH]; intros m n Hm Hn Hfuel; simpl.
  - destruct (Z.leb_spec m n); [lia|eauto].
  - destruct (Z.leb_spec m n) as [Hmn|]; [|eauto].
    pose proof (sar_1_mid Hm Hmn ltac:(lia)) as Hk.
    destruct (gt0 _).
    + apply IH; lia.
    + destruct (lt0 _); [|eauto].
      apply IH; lia.
Qed.

Lemma binarySearch_terminates (ar : list Key) (el : bound) :
  len ar < 2 ^ 30 ->
  exists r,
    binarySearch_loop (S (List.length ar)) ar el 0 (len ar - 1) = Some r
    /\ binarySearch ar el = r.
Proof.
  intros Hlen.
  destruct (@binarySearch_loop_terminates ar el Hlen (S (List.length ar))
              0 (len ar - 1)) as [r Hr]; try (unfold len; lia).
  exists r. split; [exact Hr|].
  unfold binarySearch. now rewrite Hr.
Qed.

(** ** Exhaustion *)

Lemma exhausted_op (cacache : Cacache) (f : flavor) (o : operation)
    (w : world Iter) :
  kDone (self w) = true -> kSeekOptions (self w) = None ->
  is_seek o = false ->
  exists new,
    run_op cacache f o w
    = (Normal tt, {| self := self w; io := io w; calls := calls w ++ new |})
    /\ Forall (fun c => delivered c = []) new.
Proof.
  destruct w as [it io0 calls0].
  destruct it as [cur done rv bs cc loc keys pr so].
  simpl. intros -> -> Hseek.
  destruct o as [|size| |]; try discriminate Hseek;
    destruct f, rv, pr as [[]|e];
    unfold run_op, Iterator._next, Iterator._nextv, Iterator._all,
      KeyIterator._next, KeyIterator._nextv, KeyIterator._all,
      ValueIterator._next, ValueIterator._nextv, ValueIterator._all,
      kNext, kNextv, kAll, getKeyBatch;
    try (destruct (Z.to_nat (size - 1)));
    cbv -[List.app]; rewrite <- ?app_assoc;
    eexists; (split; [reflexivity|]); repeat constructor.
Qed.

Lemma exhausted_ops (cacache : Cacache) (f : flavor) (ops : list operation) :
  forall w : world Iter,
    kDone (self w) = true -> kSeekOptions (self w) = None ->
    forallb (fun o => negb (is_seek o)) ops = true ->
    exists new,
      run_ops cacache f ops w
      = (Normal tt,
         {| self := self w; io := io w; calls := calls w ++ new |})
      /\ Forall (fun c => delivered c = []) new.
Proof.
  induction ops as [|o ops IH]; intros w Hdone Hseek Hops; simpl.
  - exists []. rewrite app_nil_r. destruct w; split; [reflexivity|constructor].
  - simpl in Hops. apply andb_true_iff in Hops as [Ho Hops].
    apply negb_true_iff in Ho.
    destruct (exhausted_op cacache f o w Hdone Hseek Ho) as (new1 & E1 & F1).
    unfold bind. rewrite E1.
    destruct (IH {| self := self w; io := io w; calls := calls w ++ new1 |}
                Hdone Hseek Hops) as (new2 & E2 & F2).
    rewrite E2. simpl.
    exists (new1 ++ new2). rewrite app_assoc.
    split; [reflexivity|]. apply Forall_app; auto.
Qed.

(** ** Operations keep the snapshot and list nothing *)

Lemma frame_refl (s : Iter) : frame s s.
Proof. repeat split. Qed.

Lemma frame_trans (s1 s2 s3 : Iter) :
  frame s1 s2 -> frame s2 s3 -> frame s1 s3.
Proof.
  intros (A1 & A2 & A3) (B1 & B2 & B3).
  repeat split; congruence.
Qed.

Lemma no_listing_refl (l : list io_event) : no_listing l l.
Proof. exists []. now rewrite app_nil_r. Qed.

Lemma count_ls_app (l1 l2 : list io_event) :
  count_ls (l1 ++ l2) = (count_ls l1 + count_ls l2)%nat.
Proof.
  induction l1 as [|[] l1 IH]; simpl; auto.
Qed.

Lemma no_listing_trans (l1 l2 l3 : list io_event) :
  no_listing l1 l2 -> no_listing l2 l3 -> no_listing l1 l3.
Proof.
  intros (e1 & -> & C1) (e2 & -> & C2).
  exists (e1 ++ e2). rewrite app_assoc, count_ls_app. split; [reflexivity|lia].
Qed.

Lemma step_ok_refl (w : world Iter) : step_ok w w.
Proof.
  split; [apply frame_refl|]. split; [lia|apply no_listing_refl].
Qed.

Lemma step_ok_trans (w1 w2 w3 : world Iter) :
  step_ok w1 w2 -> step_ok w2 w3 -> step_ok w1 w3.
Proof.
  intros (F1 & R1 & L1) (F2 & R2 & L2).
  split; [eapply frame_trans; eauto|].
  split; [lia|eapply no_listing_trans; eauto].
Qed.

Lemma sound_sound_from {A : Type} (m : M Iter A) (w : world Iter) :
  sound m -> sound_from w m.
Proof. intros H w' _. apply H. Qed.

Lemma sound_from_step {A : Type} (m : M Iter A) (w w' : world Iter) :
  step_ok w w' -> sound_from w m -> sound_from w' m.
Proof.
  intros Hs Hm w'' Hs'. apply Hm. eapply step_ok_trans; eauto.
Qed.

Lemma sound_at_bind {A B : Type} (m : M Iter A) (k : A -> M Iter B)
    (w : world Iter) :
  sound_at m w ->
  (forall a w', m w = (Normal a, w') -> sound_at (k a) w') ->
  sound_at (bind m k) w.
Proof.
  unfold sound_at, bind.
  destruct (m w) as [[a|e|] w'] eqn:E; simpl; intros [H1 H2] Hk.
  - destruct (Hk a w' eq_refl) as [K1 K2].
    split; [exact K1|eapply step_ok_trans; eauto].
  - split; [discriminate|exact H2].
  - contradiction.
Qed.

Lemma sound_at_catch {A : Type} (m : M Iter A) (h : error -> M Iter A)
    (w : world Iter) :
  sound_at m w ->
  (forall e w', m w = (Throw e, w') -> sound_at (h e) w') ->
  sound_at (catch m h) w.
Proof.
  unfold sound_at, catch.
  destruct (m w) as [[a|e|] w'] eqn:E; simpl; intros [H1 H2] Hh.
  - split; [discriminate|exact H2].
  - destruct (Hh e w' eq_refl) as [K1 K2].
    split; [exact K1|eapply step_ok_trans; eauto].
  - contradiction.
Qed.

Lemma sound_from_bind {A B : Type} (m : M Iter A) (k : A -> M Iter B)
    (w : world Iter) :
  sound_from w m -> (forall a, sound_from w (k a)) ->
  sound_from w (bind m k).
Proof.
  intros Hm Hk w' Hw'. apply sound_at_bind; [auto|].
  intros a w'' E. apply Hk.
  eapply step_ok_trans; [exact Hw'|].
  destruct (Hm w' Hw') as [_ Hs]. now rewrite E in Hs.
Qed.

Lemma sound_from_catch {A : Type} (m : M Iter A) (h : error -> M Iter A)
    (w : world Iter) :
  sound_from w m -> (forall e, sound_from w (h e)) ->
  sound_from w (catch m h).
Proof.
  intros Hm Hh w' Hw'. apply sound_at_catch; [auto|].
  intros e w'' E. apply Hh.
  eapply step_ok_trans; [exact Hw'|].
  destruct (Hm w' Hw') as [_ Hs]. now rewrite E in Hs.
Qed.

Lemma sound_ret {A : Type} (a : A) : sound (ret (S := Iter) a).
Proof. intros w. split; [discriminate|apply step_ok_refl]. Qed.

Lemma sound_throw {A : Type} (e : error) : sound (throw (S := Iter) (A := A) e).
Proof. intros w. split; [discriminate|apply step_ok_refl]. Qed.

Lemma sound_get : sound (get (S := Iter)).
Proof. intros w. split; [discriminate|apply step_ok_refl]. Qed.

Lemma sound_deliver (c : call) : sound (deliver (S := Iter) c).
Proof.
  intros w. split; [discriminate|].
  split; [apply frame_refl|]. split; [apply le_n|apply no_listing_refl].
Qed.

Lemma sound_emit_get (location : option string) (key : Key) :
  sound (emit (S := Iter) (Get location key)).
Proof.
  intros w. split; [discriminate|].
  split; [apply frame_refl|]. split; [apply le_n|].
  exists [Get location key]. split; reflexivity.
Qed.

Lemma sound_await {A : Type} (p : settled A) : sound (await (S := Iter) p).
Proof. destruct p; [apply sound_ret|apply sound_throw]. Qed.

Lemma sound_from_nextTick (w : world Iter) (m : M Iter unit) :
  sound_from w m -> sound_from w (nextTick m).
Proof.
  intros H. apply sound_from_catch; [exact H|].
  intros e. apply sound_sound_from, sound_deliver.
Qed.

Lemma sound_from_floating (w : world Iter) (m : M Iter unit) :
  sound_from w m -> sound_from w (floating m).
Proof. apply sound_from_nextTick. Qed.

Lemma sound_user (err : option error) (args : list value) :
  sound (user (S := Iter) err args).
Proof. apply sound_deliver. Qed.

Lemma sound_get_data (v : value) : sound (get_data (S := Iter) v).
Proof. destruct v; first [apply sound_ret|apply sound_throw]. Qed.

Lemma sound_elem (v : value) (i : Z) : sound (elem (S := Iter) v i).
Proof. destruct v; first [apply sound_ret|apply sound_throw]. Qed.

Lemma sound_from_pMap {A B : Type} (w : world Iter) (mapper : A -> M Iter B)
    (input : list A) :
  (forall x, sound_from w (mapper x)) -> sound_from w (pMap input mapper).
Proof.
  intros Hf. induction input as [|x xs IH]; simpl.
  - apply sound_sound_from, sound_ret.
  - apply sound_from_bind; [apply Hf|]. intros y.
    apply sound_from_bind; [exact IH|]. intros ys.
    apply sound_sound_from, sound_ret.
Qed.

Lemma sound_map_elem1 (values : value) : sound (map_elem1 (S := Iter) values).
Proof.
  intros w.
  destruct values; try apply sound_throw. simpl.
  apply (@sound_from_bind _ _ _ _ w); [| |apply step_ok_refl].
  - apply sound_from_pMap. intros x. apply sound_sound_from, sound_elem.
  - intros r. apply sound_sound_from, sound_ret.
Qed.

Section Soundness.
Variable cacache : Cacache.

Lemma sound_fetch (location : option string) (key : Key) :
  sound (fetch cacache (S := Iter) location key).
Proof.
  intros w. unfold fetch.
  apply (@sound_from_bind _ _ _ _ w); [| |apply step_ok_refl].
  - apply sound_sound_from, sound_emit_get.
  - intros _. apply sound_sound_from.
    destruct (cacache_get cacache location key);
      [apply sound_ret|].
    destruct (String.eqb code "ENOENT"); [apply sound_ret|apply sound_throw].
Qed.

Lemma sound_from_getValue (w : world Iter) (location : option string)
    (key : Key) (callback : option error -> value -> M Iter unit) :
  (forall err v, sound_from w (callback err v)) ->
  sound_from w (getValue cacache location key callback).
Proof.
  intros Hcb. unfold getValue.
  apply sound_from_floating, sound_from_catch.
  - apply sound_from_bind; [apply sound_sound_from, sound_fetch|].
    intros data. destruct data; apply Hcb.
  - intros e. apply Hcb.
Qed.

Lemma sound_from_getMany (w : world Iter) (location : option string)
    (keys : list Key) (concurrency : Z)
    (callback : option error -> value -> M Iter unit) :
  (forall err v, sound_from w (callback err v)) ->
  sound_from w (getMany cacache location keys concurrency callback).
Proof.
  intros Hcb. unfold getMany.
  apply sound_from_bind.
  - destruct (len keys =? 0);
      [apply sound_from_nextTick, Hcb|apply sound_sound_from, sound_ret].
  - intros _. apply sound_from_floating, sound_from_catch.
    + apply sound_from_bind; [|intros results; apply Hcb].
      apply sound_from_pMap. intros key.
      apply sound_sound_from, sound_fetch.
    + intros e. apply Hcb.
Qed.

(** Every [kAdvance] on a cursor that is not done lowers
    [remaining]; on a done cursor it answers [null] and changes
    nothing. *)
Lemma kAdvance_spec (w : world Iter) :
  exists key it',
    kAdvance w
    = (Normal key, {| self := it'; io := io w; calls := calls w |})
    /\ frame (self w) it'
    /\ (kDone (self w) = false ->
        (remaining it' < remaining (self w))%nat)
    /\ (kDone (self w) = true -> key = null /\ it' = self w)
    /\ (key = null \/ key = undefined \/ exists k, key = str k).
Proof.
  destruct w as [it io0 calls0].
  destruct it as [cur done rv bs cc loc keys pr so].
  unfold kAdvance, bind, get, modify, ret. simpl.
  destruct rv.
  - unfold kAdvancePrev. simpl. destruct done.
    + do 2 eexists. split; [reflexivity|].
      split; [apply frame_refl|]. split; [discriminate|]. split; auto.
    + destruct (Z.ltb_spec 0 cur) as [Hc|Hc].
      * do 2 eexists. split; [reflexivity|].
        split; [repeat split|]. split.
        -- intros _. unfold remaining. simpl.
           destruct (cur - 1 =? 0); lia.
        -- split; [discriminate|].
           destruct (index keys cur); simpl; eauto.
      * do 2 eexists. split; [reflexivity|].
        split; [repeat split|]. split.
        -- intros _. unfold remaining. simpl. lia.
        -- split; [discriminate|auto].
  - unfold kAdvanceNext. simpl. destruct done.
    + do 2 eexists. split; [reflexivity|].
      split; [apply frame_refl|]. split; [discriminate|]. split; auto.
    + destruct (Z.ltb_spec cur (len keys)) as [Hc|Hc].
      * do 2 eexists. split; [reflexivity|].
        split; [repeat split|]. split.
        -- intros _. unfold remaining. simpl.
           destruct (len keys <=? cur + 1); lia.
        -- split; [discriminate|].
           destruct (index keys cur); simpl; eauto.
      * do 2 eexists. split; [reflexivity|].
        split; [repeat split|]. split.
        -- intros _. unfold remaining. simpl. lia.
        -- split; [discriminate|auto].
Qed.

Lemma remaining_done (it : Iter) : kDone it = true -> remaining it = O.
Proof. unfold remaining. now intros ->. Qed.

Lemma kAdvance_step (w : world Iter) :
  exists key w',
    kAdvance w = (Normal key, w') /\ step_ok w w'
    /\ (kDone (self w) = false ->
        (remaining (self w') < remaining (self w))%nat)
    /\ (kDone (self w) = true -> key = null)
    /\ (key = null \/ key = undefined \/ exists k, key = str k).
Proof.
  destruct (kAdvance_spec w) as (key & it' & E & F & Hlt & Hdone & Hshape).
  exists key, {| self := it'; io := io w; calls := calls w |}.
  split; [exact E|]. split.
  - split; [exact F|]. split; [|apply no_listing_refl]. simpl.
    destruct (kDone (self w)) eqn:D.
    + destruct (Hdone eq_refl) as [_ ->]. apply le_n.
    + specialize (Hlt eq_refl). lia.
  - split; [exact Hlt|]. split; [|exact Hshape].
    intros D. now destruct (Hdone D).
Qed.

Lemma sound_kAdvance : sound kAdvance.
Proof.
  intros w. destruct (kAdvance_step w) as (key & w' & E & Hs & _).
  unfold sound_at. rewrite E. split; [discriminate|exact Hs].
Qed.

(** [getKeyBatch] answers, and a batch that is not empty has lowered
    [remaining]. *)
Lemma getKeyBatch_loop_spec (more : nat) :
  forall (slice : list Key) (w : world Iter),
  exists pushed w',
    getKeyBatch_loop more slice w = (Normal (slice ++ pushed), w')
    /\ step_ok w w'
    /\ (pushed <> [] -> (remaining (self w') < remaining (self w))%nat).
Proof.
  induction more as [|more IH]; intros slice w;
    destruct (kAdvance_step w) as (key & w1 & E & Hs & Hlt & Hdone & Hshape);
    simpl; unfold bind; rewrite E.
  - destruct Hshape as [->|[->|[k ->]]].
    + exists [], w1. rewrite app_nil_r. repeat split; auto; try apply Hs.
      intros H; now elim H.
    + exists [], w1. rewrite app_nil_r. repeat split; auto; try apply Hs.
      intros H; now elim H.
    + simpl. destruct (String.eqb k "") eqn:Ek.
      * exists [], w1. rewrite app_nil_r. repeat split; auto; try apply Hs.
        intros H; now elim H.
      * exists [k], w1. split; [reflexivity|]. split; [exact Hs|].
        intros _. apply Hlt.
        destruct (kDone (self w)) eqn:D; [|reflexivity].
        specialize (Hdone eq_refl). discriminate.
  - destruct Hshape as [->|[->|[k ->]]].
    + exists [], w1. rewrite app_nil_r. repeat split; auto; try apply Hs.
      intros H; now elim H.
    + exists [], w1. rewrite app_nil_r. repeat split; auto; try apply Hs.
      intros H; now elim H.
    + simpl. destruct (String.eqb k "") eqn:Ek.
      * exists [], w1. rewrite app_nil_r. repeat split; auto; try apply Hs.
        intros H; now elim H.
      * destruct (IH (slice ++ [k]) w1) as (pushed & w2 & E2 & Hs2 & _).
        exists (k :: pushed), w2.
        split; [rewrite E2; now rewrite <- app_assoc|].
        split; [eapply step_ok_trans; eauto|].
        intros _.
        assert ((remaining (self w1) < remaining (self w))%nat) as Hd.
        { apply Hlt. destruct (kDone (self w)) eqn:D; [|reflexivity].
          specialize (Hdone eq_refl). discriminate. }
        destruct Hs2 as (_ & Hr & _). lia.
Qed.

Lemma sound_getKeyBatch (batchSize : Z) : sound (getKeyBatch batchSize).
Proof.
  intros w. unfold getKeyBatch.
  destruct (getKeyBatch_loop_spec (Z.to_nat (batchSize - 1)) [] w)
    as (pushed & w' & E & Hs & _).
  unfold sound_at. rewrite E. split; [discriminate|exact Hs].
Qed.

Lemma sound_push_entries (values : value) (keys : list Key) :
  forall i, sound (push_entries keys i values).
Proof.
  induction keys as [|k ks IH]; intros i w; simpl.
  - apply sound_ret.
  - apply (@sound_from_bind _ _ _ _ w); [| |apply step_ok_refl].
    + apply sound_sound_from, sound_elem.
    + intros v. apply sound_from_bind;
        [apply sound_sound_from, sound_get_data|].
      intros d. apply sound_from_bind; [apply sound_sound_from, IH|].
      intros rest. apply sound_sound_from, sound_ret.
Qed.

Lemma sound_forEach_push (keys : list Key) (values : list value) :
  forall i, sound (forEach_push keys i values).
Proof.
  induction values as [|v vs IH]; intros i w; simpl.
  - apply sound_ret.
  - apply (@sound_from_bind _ _ _ _ w); [| |apply step_ok_refl].
    + apply sound_sound_from, sound_get_data.
    + intros d. apply sound_from_bind; [apply sound_sound_from, IH|].
      intros rest. apply sound_sound_from, sound_ret.
Qed.

(** The [loop] of [kAll] ends: each turn that fetched a batch has
    lowered [remaining]. *)
Lemma sound_from_kAll_loop (location : option string)
    (concurrency batchSize : Z)
    (callback : option error -> value -> M Iter unit) :
  (forall err v, sound (callback err v)) ->
  forall (fuel : nat) (result : list value) (w : world Iter),
    (remaining (self w) < fuel)%nat ->
    sound_from w
      (kAll_loop cacache fuel location concurrency batchSize result
         callback).
Proof.
  intros Hcb fuel.
  induction fuel as [|fuel IH]; intros result w Hfuel; [lia|].
  intros w' Hw'. simpl.
  destruct (getKeyBatch_loop_spec (Z.to_nat (batchSize - 1)) [] w')
    as (pushed & w1 & E & Hs & Hlt).
  simpl in E.
  apply sound_at_bind.
  { apply sound_getKeyBatch. }
  intros keys w1' E'. unfold getKeyBatch in E'.
  rewrite E in E'. inversion E'; subst keys w1'; clear E'.
  destruct (Z.eqb_spec (len pushed) 0) as [Hlen|Hlen].
  - apply (@sound_from_nextTick w1); [|apply step_ok_refl].
    apply sound_sound_from, Hcb.
  - assert (pushed <> []) as Hne.
    { intros ->. now apply Hlen. }
    specialize (Hlt Hne).
    assert ((remaining (self w1) < fuel)%nat) as Hfuel1.
    { destruct Hw' as (_ & Hr & _). lia. }
    apply (@sound_from_getMany w1); [|apply step_ok_refl].
    intros err values. destruct err as [e|].
    + apply sound_sound_from, Hcb.
    + destruct values; try apply sound_sound_from, sound_throw.
      apply sound_from_bind;
        [apply sound_sound_from, sound_forEach_push|].
      intros pushed'. destruct (len l =? 0).
      * apply sound_from_nextTick, sound_sound_from, Hcb.
      * apply sound_from_nextTick, IH, Hfuel1.
Qed.
End Soundness.

Lemma sound_bind {A B : Type} (m : M Iter A) (k : A -> M Iter B) :
  sound m -> (forall a, sound (k a)) -> sound (bind m k).
Proof.
  intros Hm Hk w.
  apply (@sound_from_bind _ _ _ _ w); [| |apply step_ok_refl].
  - now apply sound_sound_from.
  - intros a. now apply sound_sound_from.
Qed.

Lemma sound_nextTick (m : M Iter unit) : sound m -> sound (nextTick m).
Proof.
  intros Hm w.
  apply (@sound_from_nextTick w); [|apply step_ok_refl].
  now apply sound_sound_from.
Qed.

Lemma lifetime_ok_refl (w : world Iter) : lifetime_ok w w.
Proof. split; [apply frame_refl|apply no_listing_refl]. Qed.

Lemma lifetime_ok_trans (w1 w2 w3 : world Iter) :
  lifetime_ok w1 w2 -> lifetime_ok w2 w3 -> lifetime_ok w1 w3.
Proof.
  intros [F1 L1] [F2 L2].
  split; [eapply frame_trans; eauto|eapply no_listing_trans; eauto].
Qed.

Lemma step_ok_lifetime_ok (w w' : world Iter) :
  step_ok w w' -> lifetime_ok w w'.
Proof. intros (F & _ & L). now split. Qed.

Lemma frame_handleSeek (options : SeekOptions) (it : Iter) :
  frame it (handleSeek options it).
Proof.
  unfold handleSeek.
  repeat match goal with
         | |- context [if ?b then _ else _] => destruct b
         end; repeat split.
Qed.

Lemma kAwaitIndex_total (w : world Iter) :
  exists r w',
    kAwaitIndex w = (r, w') /\ r <> OutOfFuel /\ lifetime_ok w w'.
Proof.
  destruct w as [it io0 calls0].
  destruct it as [cur done rv bs cc loc keys pr so].
  unfold kAwaitIndex, bind, get. simpl.
  destruct so as [options|].
  - unfold catch, modify, await, bind. simpl.
    destruct pr as [[]|e]; simpl.
    + do 2 eexists. split; [reflexivity|]. split; [discriminate|].
      split; [|apply no_listing_refl]. simpl.
      eapply frame_trans; [|apply frame_handleSeek]. repeat split.
    + do 2 eexists. split; [reflexivity|]. split; [discriminate|].
      split; [|apply no_listing_refl]. repeat split.
  - destruct pr as [[]|e]; simpl.
    + do 2 eexists. split; [reflexivity|]. split; [discriminate|].
      apply lifetime_ok_refl.
    + do 2 eexists. split; [reflexivity|]. split; [discriminate|].
      apply lifetime_ok_refl.
Qed.

Lemma floating_total (m : M Iter unit) (w : world Iter) :
  sound_at m w ->
  exists w', floating m w = (Normal tt, w') /\ lifetime_ok w w'.
Proof.
  unfold sound_at, floating, catch.
  destruct (m w) as [[[]|e|] w1]; simpl; intros [H1 H2].
  - exists w1. split; [reflexivity|now apply step_ok_lifetime_ok].
  - eexists. split; [reflexivity|].
    destruct (step_ok_lifetime_ok H2) as [F L]. split; assumption.
  - contradiction.
Qed.

(** Every operation has the shape
    [kAwaitIndex().then(...).catch(callback)]. *)
Lemma operation_total (rest : M Iter unit) (h : error -> M Iter unit) :
  sound rest -> (forall e, sound (h e)) ->
  forall w,
  exists w',
    floating (catch (kAwaitIndex ;; rest) h) w = (Normal tt, w')
    /\ lifetime_ok w w'.
Proof.
  intros Hrest Hh w.
  destruct (kAwaitIndex_total w) as (r & w1 & E & Hr & Hl).
  destruct r as [[]|e|]; [| |contradiction].
  - destruct (@floating_total (catch rest h) w1) as (w2 & E2 & Hl2).
    { apply sound_at_catch; [apply Hrest|]. intros; apply Hh. }
    exists w2. split; [|eapply lifetime_ok_trans; eauto].
    rewrite <- E2. unfold floating, catch, bind. now rewrite E.
  - destruct (@floating_total (h e) w1) as (w2 & E2 & Hl2); [apply Hh|].
    exists w2. split; [|eapply lifetime_ok_trans; eauto].
    rewrite <- E2. unfold floating, catch, bind. now rewrite E.
Qed.

Section Operations.
Variable cacache : Cacache.

Lemma kNext_total
    (callback : option error -> value -> value -> M Iter unit) :
  (forall err k v, sound (callback err k v)) ->
  forall w,
  exists w', kNext cacache callback w = (Normal tt, w')
             /\ lifetime_ok w w'.
Proof.
  intros Hcb. unfold kNext. apply operation_total; [|intros; apply Hcb].
  apply sound_bind; [apply sound_kAdvance|]. intros key.
  assert (sound (nextTick (callback None undefined undefined))) as Hend
      by apply sound_nextTick, Hcb.
  destruct key; try exact Hend.
  destruct (falsy (str s)); [exact Hend|].
  apply sound_bind; [apply sound_get|]. intros it w.
  apply (@sound_from_getValue cacache w); [|apply step_ok_refl].
  intros err v. apply sound_sound_from.
  apply sound_bind; [apply sound_get_data|]. intros d.
  apply sound_nextTick, Hcb.
Qed.

Lemma kNextv_total (size : Z)
    (callback : option error -> value -> M Iter unit) :
  (forall err v, sound (callback err v)) ->
  forall w,
  exists w', kNextv cacache size callback w = (Normal tt, w')
             /\ lifetime_ok w w'.
Proof.
  intros Hcb. unfold kNextv. apply operation_total; [|intros; apply Hcb].
  apply sound_bind; [apply sound_get|]. intros it.
  apply sound_bind; [apply sound_getKeyBatch|]. intros keys w.
  apply (@sound_from_getMany cacache w); [|apply step_ok_refl].
  intros err values. apply sound_sound_from.
  destruct err; [apply sound_nextTick, Hcb|].
  apply sound_bind; [apply sound_push_entries|]. intros result.
  apply sound_nextTick, Hcb.
Qed.

Lemma kAll_total (callback : option error -> value -> M Iter unit) :
  (forall err v, sound (callback err v)) ->
  forall w,
  exists w', kAll cacache callback w = (Normal tt, w')
             /\ lifetime_ok w w'.
Proof.
  intros Hcb. unfold kAll. apply operation_total; [|intros; apply Hcb].
  intros w. apply sound_at_bind; [apply sound_get|].
  intros it w' E. inversion E; subst it w'; clear E.
  destruct (kDone (self w)); [apply sound_nextTick, Hcb|].
  apply (@sound_from_nextTick w); [|apply step_ok_refl].
  apply sound_from_kAll_loop; [exact Hcb|]. lia.
Qed.

Lemma sound_nextv_loop (room : nat) :
  forall keys, sound (KeyIterator.nextv_loop room keys).
Proof.
  induction room as [|room IH]; intros keys; simpl.
  - apply sound_ret.
  - apply sound_bind; [apply sound_get|]. intros it.
    destruct (kDone it); [apply sound_ret|].
    apply sound_bind; [apply sound_kAdvance|]. intros key.
    destruct (is_null key); [apply sound_ret|apply IH].
Qed.

(** The [while (!this[kDone])] loop of [KeyIterator._all] ends. *)
Lemma sound_at_all_loop (fuel : nat) :
  forall keys w,
    (remaining (self w) <= fuel)%nat ->
    sound_at (KeyIterator.all_loop fuel keys) w.
Proof.
  induction fuel as [|fuel IH]; intros keys w Hfuel.
  - simpl. apply sound_at_bind; [apply sound_get|].
    intros it w' E. inversion E; subst it w'; clear E.
    destruct (kDone (self w)) eqn:D; [apply sound_ret|].
    unfold remaining in Hfuel. rewrite D in Hfuel.
    destruct (kReverse (self w)); lia.
  - simpl. apply sound_at_bind; [apply sound_get|].
    intros it w' E. inversion E; subst it w'; clear E.
    destruct (kDone (self w)) eqn:D; [apply sound_ret|].
    destruct (kAdvance_step w) as (key & w1 & E & Hs & Hlt & _).
    apply sound_at_bind; [apply sound_kAdvance|].
    intros key' w1' E'. rewrite E in E'.
    inversion E'; subst key' w1'; clear E'.
    destruct (is_null key); [apply sound_ret|].
    apply IH. specialize (Hlt D). lia.
Qed.

Lemma run_op_total (f : flavor) (o : operation) (w : world Iter) :
  exists w', run_op cacache f o w = (Normal tt, w')
             /\ lifetime_ok w w'.
Proof.
  assert (forall err args, sound (nextTick (user (S := Iter) err args)))
    as Huser by (intros; apply sound_nextTick, sound_user).
  destruct o as [|size| |target sgt sgte slt slte].
  - destruct f; simpl.
    + apply kNext_total. intros [e|] k v; apply Huser.
    + unfold KeyIterator._next.
      apply operation_total; [|intros; apply sound_user].
      apply sound_bind; [apply sound_kAdvance|]. intros key. apply Huser.
    + apply kNext_total. intros [e|] k v; apply Huser.
  - destruct f; simpl.
    + apply kNextv_total. intros [e|] v; apply Huser.
    + unfold KeyIterator._nextv.
      apply operation_total; [|intros; apply sound_user].
      apply sound_bind; [apply sound_get|]. intros it.
      destruct (kDone it); [apply Huser|].
      apply sound_bind; [apply sound_nextv_loop|]. intros keys.
      apply Huser.
    + apply kNextv_total. intros [e|] v; [apply Huser|].
      apply sound_bind; [apply sound_map_elem1|]. intros r. apply Huser.
  - destruct f; simpl.
    + apply kAll_total. intros [e|] v; apply Huser.
    + unfold KeyIterator._all.
      apply operation_total; [|intros; apply sound_user].
      intros w0. apply sound_at_bind; [apply sound_get|].
      intros it w' E. inversion E; subst it w'; clear E.
      apply sound_at_bind; [apply sound_at_all_loop, le_n|].
      intros keys w' _. apply Huser.
    + apply kAll_total. intros [e|] v; [apply Huser|].
      apply sound_bind; [apply sound_map_elem1|]. intros r. apply Huser.
  - simpl. unfold _seek, modify. eexists. split; [reflexivity|].
    split; [|apply no_listing_refl]. repeat split.
Qed.

Lemma run_ops_total (f : flavor) (ops : list operation) :
  forall w,
  exists w', run_ops cacache f ops w = (Normal tt, w')
             /\ lifetime_ok w w'.
Proof.
  induction ops as [|o ops IH]; intros w; simpl.
  - exists w. split; [reflexivity|apply lifetime_ok_refl].
  - destruct (run_op_total f o w) as (w1 & E1 & L1).
    destruct (IH w1) as (w2 & E2 & L2).
    exists w2. unfold bind. rewrite E1.
    split; [exact E2|eapply lifetime_ok_trans; eauto].
Qed.
End Operations.

(** ** Seeking below the first key *)

Lemma handleSeek_below_first (options : SeekOptions) (it : Iter)
    (k0 : Key) (rest : list Key) :
  kReverse it = false -> kIndexKeys it = k0 :: rest ->
  String.ltb (target options) k0 = true ->
  handleSeek options it
  = if has (seek_gt options) || has (seek_gte options)
    then setCursor 0 (setDone false it)
    else setCursor (len (kIndexKeys it)) (setDone true it).
Proof.
  intros Hrev Hkeys Hlt. unfold handleSeek.
  rewrite Hrev, Hkeys. simpl negb. cbv iota.
  change (index (k0 :: rest) 0) with (Some k0).
  unfold compare. rewrite Hlt. reflexivity.
Qed.

Lemma kAwaitIndex_seek (w : world Iter) (options : SeekOptions) :
  kSeekOptions (self w) = Some options ->
  kIndexPromise (self w) = Fulfilled tt ->
  kAwaitIndex w
  = (Normal tt,
     {| self := handleSeek options (setSeekOptions None (self w));
        io := io w; calls := calls w |}).
Proof.
  destruct w as [it io0 calls0].
  destruct it as [cur done rv bs cc loc keys pr so].
  simpl. intros -> ->. reflexivity.
Qed.

Lemma kAwaitIndex_ready (w : world Iter) :
  kSeekOptions (self w) = None ->
  kIndexPromise (self w) = Fulfilled tt ->
  kAwaitIndex w = (Normal tt, w).
Proof.
  destruct w as [it io0 calls0].
  destruct it as [cur done rv bs cc loc keys pr so].
  simpl. intros -> ->. reflexivity.
Qed.

(** An operation that finds a pending seek behaves as on the cursor
    the seek leaves. *)
Lemma run_op_applies_seek (cacache : Cacache) (f : flavor) (o : operation)
    (w w1 : world Iter) :
  is_seek o = false ->
  kAwaitIndex w = (Normal tt, w1) ->
  kAwaitIndex w1 = (Normal tt, w1) ->
  run_op cacache f o w = run_op cacache f o w1.
Proof.
  intros Ho E E1.
  destruct o; try discriminate Ho; destruct f; simpl;
    unfold Iterator._next, Iterator._nextv, Iterator._all,
      KeyIterator._next, KeyIterator._nextv, KeyIterator._all,
      ValueIterator._next, ValueIterator._nextv, ValueIterator._all,
      kNext, kNextv, kAll, floating, catch, bind;
    rewrite E, E1; reflexivity.
Qed.

(** * The claims *)

(** C1 (the code departs from the claim).  Keys a, b, c, d, e, range
    [{gt: "b", lte: "d"}], forward: [parseBounds] searches [upperBound]
    for the start as well and answers the window [4, 3]; the snapshot is
    empty and [all()] delivers an empty array, on the entry cursor and on
    the key cursor, where the claim has c and d.  With a lower bound
    alone, the README's [{gt: "a"}] over the keys a and b, the start
    stays 0 and a is delivered too. *)
Lemma forward_gt_b_lte_d_delivers_nothing :
  sort (map entry_key
          match cacache_ls store_abcde "/db" with
          | Listed entries => entries
          | LsRejected _ => []
          end)
  = ["a"; "b"; "c"; "d"; "e"]
  /\ parseBounds ["a"; "b"; "c"; "d"; "e"] (gt_b_lte_d false)
     = {| start := 4; end_ := 3;
          lowerBound := Bound "b"; upperBound := Bound "d" |}
  /\ kIndexKeys (self (kInit store_abcde db0 (gt_b_lte_d false))) = []
  /\ calls (snd (lifetime store_abcde db0 (gt_b_lte_d false) Entries [All]))
     = [Called None [arr []]]
  /\ calls (snd (lifetime store_abcde db0 (gt_b_lte_d false) Keys [All]))
     = [Called None [arr []]]
  /\ calls (snd (lifetime store_ab db0 gt_a Entries [All]))
     = [Called None [arr [arr [str "a"; buf "1"]; arr [str "b"; buf "2"]]]].
Proof. repeat split; vm_compute; reflexivity. Qed.

(** C2 (the code departs from the claim).  Keys a, c, e, no range:
    after [seek("b")] the forward cursor stands on position 2 and
    [next()] delivers e, where the claim has c, the smallest key not
    below b; the reverse cursor, whose snapshot is the single key e,
    is exhausted by [seek("d")] and [next()] delivers nothing, where the
    claim has c. *)
Lemma seek_between_keys_skips_one :
  calls (snd (lifetime store_ace db0 (no_range false) Keys
                [Seek "b" None None None None; Next]))
  = [Called None [str "e"]]
  /\ calls (snd (lifetime store_ace db0 (no_range false) Entries
                   [Seek "b" None None None None; Next]))
     = [Called None [str "e"; buf "5"]]
  /\ kCursor (self (snd (lifetime store_ace db0 (no_range false) Keys
                           [Seek "b" None None None None; Nextv 0])))
     = 2
  /\ calls (snd (lifetime store_ace db0 (no_range true) Keys
                   [Seek "d" None None None None; Next]))
     = [Called None [null]].
Proof. repeat split; vm_compute; reflexivity. Qed.

(** C3 (the code departs from the claim).  Keys a, b, c, d, e, range
    [{gt: "b", lte: "d"}], reverse: the snapshot is b, c and the cursor
    starts at position 0, not at the end of the window; [kAdvancePrev]
    answers nothing at position 0, so [all()] delivers an empty array
    where the claim has d and c. *)
Lemma reverse_gt_b_lte_d_delivers_nothing :
  kIndexKeys (self (kInit store_abcde db0 (gt_b_lte_d true))) = ["b"; "c"]
  /\ kCursor (self (kInit store_abcde db0 (gt_b_lte_d true))) = 0
  /\ calls (snd (lifetime store_abcde db0 (gt_b_lte_d true) Entries [All]))
     = [Called None [arr []]]
  /\ calls (snd (lifetime store_abcde db0 (gt_b_lte_d true) Keys [All]))
     = [Called None [arr []]]
  /\ calls (snd (lifetime store_abcde db0 (gt_b_lte_d true) Keys [Next]))
     = [Called None [null]].
Proof. repeat split; vm_compute; reflexivity. Qed.

(** Exhaustion never resurrects an entry: on a cursor that is done
    and has no seek pending, every sequence of [next], [nextv] and
    [all], on the entry, key or value cursor, leaves the cursor as it
    is (done stays true), asks the store for nothing, and no callback
    invocation carries an entry. *)
Theorem exhaustion_is_monotonic (cacache : Cacache) (f : flavor)
    (ops : list operation) (w : world Iter) :
  kDone (self w) = true -> kSeekOptions (self w) = None ->
  forallb (fun o => negb (is_seek o)) ops = true ->
  exists new,
    run_ops cacache f ops w
    = (Normal tt, {| self := self w; io := io w; calls := calls w ++ new |})
    /\ Forall (fun c => delivered c = []) new.
Proof. apply exhausted_ops. Qed.

Lemma exhaustion_is_monotonic_witness :
  let w := snd (lifetime store_abcde db0 (no_range false) Entries [All]) in
  kDone (self w) = true /\ kSeekOptions (self w) = None
  /\ exists new,
      run_ops store_abcde Entries [Next; Nextv 2; All] w
      = (Normal tt,
         {| self := self w; io := io w; calls := calls w ++ new |})
      /\ Forall (fun c => delivered c = []) new.
Proof.
  cbv zeta. split; [reflexivity|]. split; [reflexivity|].
  apply exhaustion_is_monotonic; reflexivity.
Defined.

(** C5 (counterexample to the claim as stated).  Single key b, a
    forward cursor, [seek("a")] carrying the exclusive lower-bound flag
    [gt]: the cursor is not exhausted, [next()] delivers b. *)
Lemma seek_gt_below_first_key_not_exhausted :
  let w := snd (lifetime store_b db0 (no_range false) Entries
                  [Seek "a" (Some true) None None None; Next]) in
  calls w = [Called None [str "b"; buf "2"]]
  /\ ~ Forall (fun c => delivered c = []) (calls w).
Proof.
  cbv zeta. split; [vm_compute; reflexivity|].
  vm_compute. intros H. inversion H as [|c l Hc Hl]. discriminate Hc.
Qed.

(** What the code does with the same seek when it carries neither
    [gt] nor [gte]: the first operation after it finds the cursor done
    and neither it nor any later operation delivers an entry. *)
Lemma seek_below_first_key_unflagged (cacache : Cacache) (f : flavor)
    (w : world Iter) (t : Key) (slt slte : option bool)
    (k0 : Key) (rest : list Key) (o : operation) (ops : list operation) :
  kReverse (self w) = false ->
  kIndexPromise (self w) = Fulfilled tt ->
  kIndexKeys (self w) = k0 :: rest ->
  String.ltb t k0 = true ->
  is_seek o = false ->
  forallb (fun o => negb (is_seek o)) ops = true ->
  exists w' new,
    run_ops cacache f (Seek t None None slt slte :: o :: ops) w
    = (Normal tt, w')
    /\ kDone (self w') = true
    /\ io w' = io w
    /\ calls w' = calls w ++ new
    /\ Forall (fun c => delivered c = []) new.
Proof.
  intros Hrev Hpr Hkeys Hlt Ho Hops.
  set (options := {| target := t; seek_gt := None; seek_gte := None;
                     seek_lt := slt; seek_lte := slte |}).
  set (ws := {| self := setSeekOptions (Some options) (self w);
                io := io w; calls := calls w |}).
  assert (kAwaitIndex ws
          = (Normal tt,
             {| self := handleSeek options (setSeekOptions None (self ws));
                io := io w; calls := calls w |})) as Eawait.
  { apply (@kAwaitIndex_seek ws options); [reflexivity|exact Hpr]. }
  rewrite (@handleSeek_below_first options _ k0 rest) in Eawait;
    [|exact Hrev|exact Hkeys|exact Hlt].
  simpl orb in Eawait. cbv iota in Eawait.
  match type of Eawait with _ = (_, ?x) => set (w1 := x) in * end.
  assert (kAwaitIndex w1 = (Normal tt, w1)) as E1.
  { apply kAwaitIndex_ready; [reflexivity|exact Hpr]. }
  destruct (@exhausted_ops cacache f (o :: ops) w1) as (new & E & Hnew).
  { reflexivity. }
  { reflexivity. }
  { simpl. rewrite Ho. exact Hops. }
  exists {| self := self w1; io := io w1; calls := calls w1 ++ new |}, new.
  split; [|split; [|split; [|split; [reflexivity|exact Hnew]]]].
  - change (run_ops cacache f (Seek t None None slt slte :: o :: ops) w)
      with (run_ops cacache f (o :: ops) ws).
    simpl run_ops in *. unfold bind in *.
    rewrite (@run_op_applies_seek cacache f o ws w1 Ho Eawait E1).
    exact E.
  - reflexivity.
  - reflexivity.
Qed.

(** C6 (the code departs from the claim).  The snapshot lists a, whose
    value is gone at fetch time.  [next()]: [getValue] builds the
    NotFound error, but the callback of [kNext] reads [value.data] of the
    missing value first; the TypeError is raised inside the promise
    chain, whose [catch] invokes the same callback, which raises again:
    the caller's callback is never invoked.  [nextv] and [all] fail the
    whole batch, with that TypeError and not with NotFound.  One request
    is made to the store in each case. *)
Lemma vanished_value_is_not_reported_as_NotFound :
  lifetime (store_vanished ["a"]) db0 (no_range false) Entries [Next]
  = (Normal tt,
     {| self := self (snd (lifetime (store_vanished ["a"]) db0
                             (no_range false) Keys [Next]));
        io := [Ls "/db"; Get None "a"];
        calls := [Uncaught TypeError] |})
  /\ calls (snd (lifetime (store_vanished ["a"]) db0 (no_range false)
                   Entries [Nextv 1]))
     = [Called (Some TypeError) []]
  /\ calls (snd (lifetime (store_vanished ["a"]) db0 (no_range false)
                   Entries [All]))
     = [Called (Some TypeError) []]
  /\ calls (snd (lifetime (store_vanished ["a"]) db0 (no_range false)
                   Values [Next]))
     = [Uncaught TypeError].
Proof. repeat split; vm_compute; reflexivity. Qed.

(** C7 (the code departs from the claim).  Sorted keys a, b and range
    [{lte: "z"}]: the search answers -3, [parseBounds] takes 3 as the
    start and 2 as the end, so the start lies beyond the last position
    and the end is not below the length: the window invariant fails,
    and nothing clamps the result. *)
Lemma parseBounds_leaves_the_snapshot :
  binarySearch ["a"; "b"] (Bound "z") = -3
  /\ parseBounds ["a"; "b"] lte_z
     = {| start := 3; end_ := 2; lowerBound := kNone;
          upperBound := Bound "z" |}
  /\ ~ window_invariant ["a"; "b"] (parseBounds ["a"; "b"] lte_z).
Proof.
  split; [vm_compute; reflexivity|].
  split; [vm_compute; reflexivity|].
  unfold window_invariant.
  replace (parseBounds ["a"; "b"] lte_z)
    with {| start := 3; end_ := 2; lowerBound := kNone;
            upperBound := Bound "z" |} by (vm_compute; reflexivity).
  unfold len. simpl. lia.
Qed.

(** C8 (counterexample to the claim as stated).  The listing is not
    deferred: a cursor that was constructed and never used has asked the
    store for its listing. *)
Lemma listing_is_not_deferred :
  ~ listing_deferred store_abcde db0 (no_range false).
Proof. unfold listing_deferred. vm_compute. discriminate. Qed.

(** C8 (amended).  The listing is issued exactly once over the
    lifetime of a cursor, by the constructor and before any operation:
    whatever operations follow, seeks included, on any of the three
    cursors, they all return, the store is asked for one listing, which
    is the first request it receives, and the index promise and the
    snapshot that the operations await stay the ones the constructor
    set. *)
Theorem listing_issued_once_by_constructor (cacache : Cacache) (db : Db)
    (options : Options) (f : flavor) (ops : list operation) :
  io (kInit cacache db options) = [Ls (db_kLocation db)]
  /\ exists w,
      lifetime cacache db options f ops = (Normal tt, w)
      /\ count_ls (io w) = 1%nat
      /\ hd_error (io w) = Some (Ls (db_kLocation db))
      /\ kIndexPromise (self w)
         = kIndexPromise (self (kInit cacache db options))
      /\ kIndexKeys (self w)
         = kIndexKeys (self (kInit cacache db options)).
Proof.
  split; [reflexivity|].
  unfold lifetime.
  destruct (run_ops_total cacache f ops (kInit cacache db options))
    as (w & E & (Hk & _ & Hp) & (ext & Hio & Hext)).
  exists w. split; [exact E|].
  rewrite Hio. simpl io.
  split; [simpl; now rewrite Hext|].
  split; [reflexivity|]. split; assumption.
Qed.


(** C10 (the code departs from the claim).  Keys a to e, no range,
    [all()] twice.  The first call drains both cursors and the value
    cursor delivers the second components of what the entry cursor
    delivers.  On the second call the cursor is done and [kAll] invokes
    its callback without values: the entry cursor hands [undefined] to
    its caller, the value cursor calls [values.map] on it, raises a
    TypeError and never invokes its caller's callback. *)
Lemma value_cursor_all_after_exhaustion :
  calls (snd (lifetime store_abcde db0 (no_range false) Entries [All; All]))
  = [Called None
       [arr [arr [str "a"; buf "1"]; arr [str "b"; buf "2"];
             arr [str "c"; buf "3"]; arr [str "d"; buf "4"];
             arr [str "e"; buf "5"]]];
     Called None [undefined]]
  /\ calls (snd (lifetime store_abcde db0 (no_range false) Values
                   [All; All]))
     = [Called None [arr [buf "1"; buf "2"; buf "3"; buf "4"; buf "5"]];
        Uncaught TypeError].
Proof. split; vm_compute; reflexivity. Qed.

(** * Further properties of the code *)

(** ** compare is a total order on keys *)

Lemma ascii_compare_lt_trans (a b c : ascii) :
  Ascii.compare a b = Lt -> Ascii.compare b c = Lt -> Ascii.compare a c = Lt.
Proof.
  unfold Ascii.compare. rewrite !N.compare_lt_iff. lia.
Qed.

Lemma string_compare_lt_trans :
  forall a b c : string,
    String.compare a b = Lt -> String.compare b c = Lt ->
    String.compare a c = Lt.
Proof.
  induction a as [|x a IH]; intros [|y b] [|z c]; simpl;
    try discriminate; try reflexivity; intros H1 H2.
  destruct (Ascii.compare x y) eqn:Exy; try discriminate;
    destruct (Ascii.compare y z) eqn:Eyz; try discriminate.
  - apply Ascii.compare_eq_iff in Exy, Eyz. subst.
    replace (Ascii.compare z z) with Eq
      by (symmetry; unfold Ascii.compare; apply N.compare_refl).
    eauto.
  - apply Ascii.compare_eq_iff in Exy. subst. now rewrite Eyz.
  - apply Ascii.compare_eq_iff in Eyz. subst. now rewrite Exy.
  - now rewrite (ascii_compare_lt_trans _ _ _ Exy Eyz).
Qed.

Lemma string_compare_refl (a : string) : String.compare a a = Eq.
Proof.
  induction a as [|x a IH]; simpl; [reflexivity|].
  replace (Ascii.compare x x) with Eq
    by (symmetry; unfold Ascii.compare; apply N.compare_refl).
  exact IH.
Qed.

Lemma ltb_trans (a b c : string) :
  String.ltb a b = true -> String.ltb b c = true -> String.ltb a c = true.
Proof.
  unfold String.ltb. intros H1 H2.
  destruct (String.compare a b) eqn:E1; try discriminate.
  destruct (String.compare b c) eqn:E2; try discriminate.
  now rewrite (string_compare_lt_trans _ _ _ E1 E2).
Qed.

Lemma ltb_irrefl (a : string) : String.ltb a a = false.
Proof. unfold String.ltb. now rewrite string_compare_refl. Qed.

Lemma leb_ltb (a b : string) : String.leb a b = negb (String.ltb b a).
Proof.
  unfold String.leb, String.ltb. rewrite (String.compare_antisym b a).
  destruct (String.compare a b); reflexivity.
Qed.

Lemma leb_cases (a b : string) :
  String.leb a b = true -> String.ltb a b = true \/ a = b.
Proof.
  unfold String.leb, String.ltb.
  destruct (String.compare a b) eqn:E; intros H; try discriminate.
  - right. now apply String.compare_eq_iff.
  - now left.
Qed.

Lemma leb_ltb_trans (a b c : string) :
  String.leb a b = true -> String.ltb b c = true -> String.ltb a c = true.
Proof.
  intros H1 H2. destruct (leb_cases _ _ H1) as [H | ->]; [|exact H2].
  eapply ltb_trans; eauto.
Qed.

Lemma ltb_leb_trans (a b c : string) :
  String.ltb a b = true -> String.leb b c = true -> String.ltb a c = true.
Proof.
  intros H1 H2. destruct (leb_cases _ _ H2) as [H | <-]; [|exact H1].
  eapply ltb_trans; eauto.
Qed.

Lemma leb_trans (a b c : string) :
  String.leb a b = true -> String.leb b c = true -> String.leb a c = true.
Proof.
  intros H1 H2. destruct (leb_cases _ _ H1) as [H | ->]; [|exact H2].
  rewrite leb_ltb. apply negb_true_iff.
  destruct (String.ltb c a) eqn:E; [|reflexivity].
  pose proof (leb_ltb_trans _ _ _ H2 E) as H3.
  pose proof (ltb_trans _ _ _ H H3) as H4.
  now rewrite ltb_irrefl in H4.
Qed.

Lemma leb_refl (a : string) : String.leb a a = true.
Proof. rewrite leb_ltb. now rewrite ltb_irrefl. Qed.

Lemma compare_lt0 (a b : Key) :
  lt0 (compare (Bound a) (Some b)) = String.ltb a b.
Proof.
  unfold compare. destruct (String.ltb a b) eqn:E; [reflexivity|].
  destruct (String.ltb b a); reflexivity.
Qed.

Lemma compare_gt0 (a b : Key) :
  gt0 (compare (Bound a) (Some b)) = String.ltb b a.
Proof.
  unfold compare. destruct (String.ltb a b) eqn:E.
  - destruct (String.ltb b a) eqn:E'; [|reflexivity].
    pose proof (ltb_trans _ _ _ E E') as H. now rewrite ltb_irrefl in H.
  - destruct (String.ltb b a); reflexivity.
Qed.

(** X1.  [compare] orders keys totally: it answers 0 exactly on equal
    keys, exchanging the arguments exchanges "below" and "above", and
    "below" is transitive. *)
Theorem compare_is_a_total_order (a b c : Key) :
  (compare (Bound a) (Some b) = Num 0 <-> a = b)
  /\ lt0 (compare (Bound a) (Some b)) = gt0 (compare (Bound b) (Some a))
  /\ implb (lt0 (compare (Bound a) (Some b))
            && lt0 (compare (Bound b) (Some c)))
       (lt0 (compare (Bound a) (Some c))) = true.
Proof.
  split; [|split].
  - unfold compare. split.
    + destruct (String.ltb a b) eqn:E1; [discriminate|].
      destruct (String.ltb b a) eqn:E2; [discriminate|]. intros _.
      apply String.leb_antisym; rewrite leb_ltb; now apply negb_true_iff.
    + intros ->. now rewrite ltb_irrefl.
  - now rewrite compare_lt0, compare_gt0.
  - rewrite !compare_lt0.
    destruct (String.ltb a b) eqn:E1; [|reflexivity].
    destruct (String.ltb b c) eqn:E2; [|reflexivity].
    simpl. now rewrite (ltb_trans _ _ _ E1 E2).
Qed.

(** ** binarySearch *)

Lemma index_Some {A : Type} (ar : list A) (i : Z) (x : A) :
  index ar i = Some x <-> 0 <= i /\ nth_error ar (Z.to_nat i) = Some x.
Proof.
  unfold index. destruct (Z.ltb_spec i 0); split.
  - discriminate.
  - intros [H0 _]. lia.
  - auto.
  - now intros [_ H1].
Qed.

Lemma index_lt_len {A : Type} (ar : list A) (i : Z) (x : A) :
  index ar i = Some x -> 0 <= i < len ar.
Proof.
  intros H. apply index_Some in H as [H0 H1]. split; [exact H0|].
  assert (nth_error ar (Z.to_nat i) <> None) as Hn by congruence.
  apply nth_error_Some in Hn. unfold len. lia.
Qed.

Lemma binarySearch_loop_any (ar : list Key) (el : bound) :
  len ar < 2 ^ 30 ->
  forall (fuel : nat) (m n : Z),
    0 <= m -> n < len ar -> n - m + 1 <= Z.of_nat fuel ->
    forall r,
      binarySearch_loop fuel ar el m n = Some r ->
      (0 <= r ->
       m <= r <= n
       /\ gt0 (compare el (index ar r)) = false
       /\ lt0 (compare el (index ar r)) = false)
      /\ (r < 0 -> m <= - r - 1 <= Z.max m (n + 1)).
Proof.
  intros Hlen fuel.
  induction fuel as [|fuel IH]; intros m n Hm Hn Hfuel r; simpl.
  - destruct (Z.leb_spec m n); [lia|].
    intros [= <-]. split; lia.
  - destruct (Z.leb_spec m n) as [Hmn|Hmn].
    + pose proof (sar_1_mid Hm Hmn ltac:(lia)) as Hk.
      destruct (gt0 _) eqn:Eg.
      * intros Hr.
        destruct (IH (sar (n + m) 1 + 1) n ltac:(lia) Hn ltac:(lia) r Hr)
          as [H1 H2].
        split; [intros H; destruct (H1 H) as (? & ? & ?); repeat split;
                  auto; lia|].
        intros H. specialize (H2 H). lia.
      * destruct (lt0 _) eqn:El.
        -- intros Hr.
           destruct (IH m (sar (n + m) 1 - 1) Hm ltac:(lia) ltac:(lia) r Hr)
             as [H1 H2].
           split; [intros H; destruct (H1 H) as (? & ? & ?); repeat split;
                     auto; lia|].
           intros H. specialize (H2 H). lia.
        -- intros [= <-]. split; [|lia].
           intros _. repeat split; auto; lia.
    + intros [= <-]. split; lia.
Qed.

(** X2.  Whatever the array holds (below 2^30 elements, so that [>>]
    does not wrap), [binarySearch] answers a position of the array or
    [-(p + 1)] with [p] between 0 and the length, and a position it
    answers holds the key that was searched. *)
Theorem binarySearch_result (ar : list Key) (t : Key) :
  len ar < 2 ^ 30 ->
  - len ar - 1 <= binarySearch ar (Bound t) < len ar
  /\ (0 <= binarySearch ar (Bound t) ->
      index ar (binarySearch ar (Bound t)) = Some t).
Proof.
  intros Hlen.
  destruct (binarySearch_terminates ar (Bound t) Hlen) as (r & Hr & ->).
  assert (0 <= len ar) by (unfold len; lia).
  destruct (@binarySearch_loop_any ar (Bound t) Hlen (S (List.length ar))
              0 (len ar - 1) ltac:(lia) ltac:(lia) ltac:(unfold len; lia)
              r Hr)
    as [H1 H2].
  split.
  - destruct (Z.lt_ge_cases r 0) as [Hneg|Hpos].
    + specialize (H2 Hneg). lia.
    + destruct (H1 Hpos) as (? & _). lia.
  - intros Hpos. destruct (H1 Hpos) as (Hrange & Hg & Hl).
    destruct (@index_in_range _ ar r ltac:(lia)) as [x Hx].
    rewrite Hx in *. rewrite compare_gt0 in Hg. rewrite compare_lt0 in Hl.
    f_equal. symmetry.
    apply String.leb_antisym; rewrite leb_ltb; now apply negb_true_iff.
Qed.

Lemma binarySearch_result_witness :
  len ["a"; "c"; "e"] < 2 ^ 30
  /\ - len ["a"; "c"; "e"] - 1 <= binarySearch ["a"; "c"; "e"] (Bound "c")
     < len ["a"; "c"; "e"]
  /\ (0 <= binarySearch ["a"; "c"; "e"] (Bound "c") ->
      index ["a"; "c"; "e"] (binarySearch ["a"; "c"; "e"] (Bound "c"))
      = Some "c").
Proof.
  split; [reflexivity|].
  apply (@binarySearch_result ["a"; "c"; "e"] "c"). reflexivity.
Defined.

Lemma ascending_cons (a : Key) (t : list Key) :
  ascending (a :: t) = true ->
  ascending t = true /\ Forall (fun y => String.leb a y = true) t.
Proof.
  revert a. induction t as [|b t IH]; intros a H.
  - split; [reflexivity|constructor].
  - simpl in H. apply andb_true_iff in H as [Hab Ht].
    split; [exact Ht|].
    destruct (IH b Ht) as [_ Hall].
    constructor; [exact Hab|].
    eapply Forall_impl; [|exact Hall].
    intros y Hy. eapply leb_trans; eauto.
Qed.

Lemma ascending_nth (l : list Key) :
  ascending l = true ->
  forall (i j : nat) (x y : Key),
    (i <= j)%nat -> nth_error l i = Some x -> nth_error l j = Some y ->
    String.leb x y = true.
Proof.
  induction l as [|a t IH]; intros Hasc i j x y Hij Hi Hj.
  - destruct i; discriminate.
  - destruct (ascending_cons _ _ Hasc) as [Ht Hall].
    destruct i as [|i], j as [|j]; simpl in Hi, Hj.
    + injection Hi as <-. injection Hj as <-. apply leb_refl.
    + injection Hi as <-.
      rewrite Forall_forall in Hall. apply Hall.
      eapply nth_error_In; eauto.
    + lia.
    + apply (IH Ht i j x y); [lia|exact Hi|exact Hj].
Qed.

Lemma ascending_index (l : list Key) (i j : Z) (x y : Key) :
  ascending l = true -> i <= j ->
  index l i = Some x -> index l j = Some y -> String.leb x y = true.
Proof.
  intros Hasc Hij Hi Hj.
  apply index_Some in Hi as [Hi0 Hi], Hj as [Hj0 Hj].
  apply (@ascending_nth l Hasc (Z.to_nat i) (Z.to_nat j) x y);
    [lia|exact Hi|exact Hj].
Qed.

Lemma binarySearch_loop_sorted (ar : list Key) (t : Key) :
  ascending ar = true -> len ar < 2 ^ 30 ->
  forall (fuel : nat) (m n : Z),
    0 <= m -> n < len ar -> n - m + 1 <= Z.of_nat fuel ->
    (forall i x, index ar i = Some x -> i < m -> String.ltb x t = true) ->
    (forall i x, index ar i = Some x -> n < i -> String.ltb t x = true) ->
    forall r,
      binarySearch_loop fuel ar (Bound t) m n = Some r -> r < 0 ->
      forall i x,
        index ar i = Some x ->
        (i < - r - 1 -> String.ltb x t = true)
        /\ (- r - 1 <= i -> String.ltb t x = true).
Proof.
  intros Hasc Hlen fuel.
  induction fuel as [|fuel IH]; intros m n Hm Hn Hfuel Hlo Hhi r;
    cbn [binarySearch_loop].
  - destruct (Z.leb_spec m n); [lia|].
    intros [= <-] _ i x Hx. split; intros H'.
    + apply (Hlo i x Hx). lia.
    + apply (Hhi i x Hx). lia.
  - destruct (Z.leb_spec m n) as [Hmn|Hmn].
    + pose proof (sar_1_mid Hm Hmn ltac:(lia)) as Hk.
      destruct (@index_in_range _ ar (sar (n + m) 1) ltac:(lia)) as [xk Hxk].
      rewrite Hxk, compare_gt0, compare_lt0.
      destruct (String.ltb xk t) eqn:Eg.
      * apply IH; try lia; [|exact Hhi].
        intros i x Hx Hi.
        eapply leb_ltb_trans; [|exact Eg].
        eapply ascending_index; [exact Hasc| |exact Hx|exact Hxk]. lia.
      * destruct (String.ltb t xk) eqn:El.
        -- apply IH; try lia; [exact Hlo|].
           intros i x Hx Hi.
           eapply ltb_leb_trans; [exact El|].
           eapply ascending_index; [exact Hasc| |exact Hxk|exact Hx]. lia.
        -- intros [= <-] Hneg. lia.
    + intros [= <-] _ i x Hx. split; intros H'.
      * apply (Hlo i x Hx). lia.
      * apply (Hhi i x Hx). lia.
Qed.

(** X3.  On keys in ascending order, a negative answer [-(p + 1)] of
    [binarySearch] is the insertion point of the key: every key before
    position [p] is below it and every key from [p] on is above it; so a
    key that is in the array is always found. *)
Theorem binarySearch_insertion_point (ar : list Key) (t : Key) :
  ascending ar = true -> len ar < 2 ^ 30 ->
  (binarySearch ar (Bound t) < 0 ->
   forall i x,
     index ar i = Some x ->
     (i < - binarySearch ar (Bound t) - 1 -> String.ltb x t = true)
     /\ (- binarySearch ar (Bound t) - 1 <= i -> String.ltb t x = true))
  /\ (In t ar -> 0 <= binarySearch ar (Bound t)).
Proof.
  intros Hasc Hlen.
  destruct (binarySearch_terminates ar (Bound t) Hlen) as (r & Hr & ->).
  assert (r < 0 ->
          forall i x,
            index ar i = Some x ->
            (i < - r - 1 -> String.ltb x t = true)
            /\ (- r - 1 <= i -> String.ltb t x = true)) as Hins.
  { intros Hneg.
    apply (@binarySearch_loop_sorted ar t Hasc Hlen (S (List.length ar))
             0 (len ar - 1));
      try (unfold len; lia); try exact Hr; try exact Hneg.
    - intros i x Hx Hi. apply index_lt_len in Hx. lia.
    - intros i x Hx Hi. apply index_lt_len in Hx. lia. }
  split; [exact Hins|].
  intros Hin. destruct (Z.lt_ge_cases r 0) as [Hneg|Hpos]; [|exact Hpos].
  apply In_nth_error in Hin as [i Hi].
  assert (index ar (Z.of_nat i) = Some t) as Hidx.
  { apply index_Some. split; [lia|]. now rewrite Nat2Z.id. }
  destruct (Hins Hneg _ _ Hidx) as [H1 H2].
  destruct (Z.lt_ge_cases (Z.of_nat i) (- r - 1)) as [Hlt|Hge].
  - specialize (H1 Hlt). now rewrite ltb_irrefl in H1.
  - specialize (H2 Hge). now rewrite ltb_irrefl in H2.
Qed.

Lemma binarySearch_insertion_point_witness :
  (ascending ["a"; "c"; "e"] = true /\ len ["a"; "c"; "e"] < 2 ^ 30)
  /\ (binarySearch ["a"; "c"; "e"] (Bound "b") < 0 ->
      forall i x,
        index ["a"; "c"; "e"] i = Some x ->
        (i < - binarySearch ["a"; "c"; "e"] (Bound "b") - 1 ->
         String.ltb x "b" = true)
        /\ (- binarySearch ["a"; "c"; "e"] (Bound "b") - 1 <= i ->
            String.ltb "b" x = true))
  /\ (In "b" ["a"; "c"; "e"] ->
      0 <= binarySearch ["a"; "c"; "e"] (Bound "b")).
Proof.
  split; [split; reflexivity|].
  apply (@binarySearch_insertion_point ["a"; "c"; "e"] "b"); reflexivity.
Defined.

(** X4.  Searched for the symbol [kNone], every comparison is [NaN],
    neither above nor below 0: the first probe is answered, the middle
    position [(len - 1) >> 1]; an empty array answers -1. *)
Theorem binarySearch_kNone (ar : list Key) :
  len ar < 2 ^ 30 ->
  binarySearch ar kNone = if len ar =? 0 then -1 else (len ar - 1) / 2.
Proof.
  intros Hlen. unfold binarySearch. simpl.
  assert (0 <= len ar) by (unfold len; lia).
  destruct (Z.eqb_spec (len ar) 0) as [E|E].
  - rewrite E. reflexivity.
  - destruct (Z.leb_spec 0 (len ar - 1)); [|lia].
    unfold sar. rewrite toInt32_small by lia.
    rewrite Z.shiftr_div_pow2 by lia. f_equal. lia.
Qed.

Lemma binarySearch_kNone_witness :
  len ["a"; "c"; "e"] < 2 ^ 30
  /\ binarySearch ["a"; "c"; "e"] kNone
     = if len ["a"; "c"; "e"] =? 0 then -1 else (len ["a"; "c"; "e"] - 1) / 2.
Proof.
  split; [reflexivity|].
  apply (@binarySearch_kNone ["a"; "c"; "e"]). reflexivity.
Defined.

(** ** The snapshot *)

Lemma sort_insert_perm (x : Key) (l : list Key) :
  Permutation (sort_insert x l) (x :: l).
Proof.
  induction l as [|y l IH]; cbn [sort_insert]; [reflexivity|].
  destruct (gt0 (compare (Bound x) (Some y))); [|reflexivity].
  rewrite IH. apply perm_swap.
Qed.

Lemma sort_perm (l : list Key) : Permutation (sort l) l.
Proof.
  induction l as [|x l IH]; simpl; [reflexivity|].
  rewrite sort_insert_perm. now constructor.
Qed.

Lemma ascending_intro (a : Key) (t : list Key) :
  ascending t = true -> Forall (fun b => String.leb a b = true) t ->
  ascending (a :: t) = true.
Proof.
  intros Ht Hall. destruct t as [|b t]; [reflexivity|].
  cbn [ascending]. inversion Hall as [|? ? Hab _]; subst.
  rewrite Hab. exact Ht.
Qed.

Lemma sort_insert_ascending (x : Key) (l : list Key) :
  ascending l = true -> ascending (sort_insert x l) = true.
Proof.
  induction l as [|y l IH]; intros Hasc; [reflexivity|].
  cbn [sort_insert]. rewrite compare_gt0.
  destruct (ascending_cons _ _ Hasc) as [Hl Hall].
  destruct (String.ltb y x) eqn:E.
  - apply ascending_intro; [now apply IH|].
    apply (Permutation_Forall (Permutation_sym (sort_insert_perm x l))).
    constructor; [|exact Hall].
    rewrite leb_ltb. apply negb_true_iff.
    destruct (String.ltb x y) eqn:E'; [|reflexivity].
    pose proof (ltb_trans _ _ _ E E') as H. now rewrite ltb_irrefl in H.
  - apply ascending_intro; [exact Hasc|].
    assert (String.leb x y = true) as Hxy
        by (rewrite leb_ltb; now apply negb_true_iff).
    constructor; [exact Hxy|].
    eapply Forall_impl; [|exact Hall].
    intros z Hz. eapply leb_trans; eauto.
Qed.

Lemma sort_ascending (l : list Key) : ascending (sort l) = true.
Proof.
  induction l as [|x l IH]; [reflexivity|].
  simpl. now apply sort_insert_ascending.
Qed.

Lemma splice_whole {A : Type} (l : list A) :
  splice l 0 (len l - 1 - 0 + 1) = l.
Proof.
  unfold splice. simpl.
  assert (0 <= len l) by (unfold len; lia).
  rewrite Z.min_l by lia. simpl.
  rewrite Z.max_l by lia. rewrite Z.min_l by lia.
  unfold len. rewrite Z.sub_0_r, Z.sub_add, Nat2Z.id. apply firstn_all.
Qed.

(** X5.  A forward cursor whose options carry no upper bound ([lt],
    [lte]) snapshots every key the store lists, in ascending order; a
    lower bound ([gt], [gte]) does not narrow the snapshot. *)
Theorem forward_snapshot_without_upper_bound (cacache : Cacache) (db : Db)
    (options : Options) (entries : list IndexEntry) :
  cacache_ls cacache (db_kLocation db) = Listed entries ->
  reverse options = false -> lt options = None -> lte options = None ->
  kIndexKeys (self (kInit cacache db options)) = sort (map entry_key entries)
  /\ Permutation (kIndexKeys (self (kInit cacache db options)))
       (map entry_key entries)
  /\ ascending (kIndexKeys (self (kInit cacache db options))) = true.
Proof.
  intros Hls Hrev Hlt Hlte.
  assert (kIndexKeys (self (kInit cacache db options))
          = sort (map entry_key entries)) as E.
  { unfold kInit. rewrite Hls. cbn [self kIndexKeys].
    unfold parseBounds. rewrite Hrev, Hlt, Hlte. cbn.
    apply splice_whole. }
  rewrite E. split; [reflexivity|].
  split; [apply sort_perm|apply sort_ascending].
Qed.

Lemma forward_snapshot_without_upper_bound_witness :
  (cacache_ls store_ab (db_kLocation db0)
   = Listed [ {| entry_key := "a"; integrity := "sha512"; time := 0 |};
              {| entry_key := "b"; integrity := "sha512"; time := 0 |} ]
   /\ reverse gt_a = false /\ lt gt_a = None /\ lte gt_a = None)
  /\ kIndexKeys (self (kInit store_ab db0 gt_a)) = sort ["a"; "b"]
  /\ Permutation (kIndexKeys (self (kInit store_ab db0 gt_a))) ["a"; "b"]
  /\ ascending (kIndexKeys (self (kInit store_ab db0 gt_a))) = true.
Proof.
  split; [repeat split|].
  apply (@forward_snapshot_without_upper_bound store_ab db0 gt_a
           [ {| entry_key := "a"; integrity := "sha512"; time := 0 |};
             {| entry_key := "b"; integrity := "sha512"; time := 0 |} ]);
    reflexivity.
Defined.

(** ** Reverse cursors and failed listings *)

Lemma reverse_idle_op (cacache : Cacache) (f : flavor) (o : operation)
    (w : world Iter) :
  kReverse (self w) = true -> kCursor (self w) = 0 ->
  kSeekOptions (self w) = None -> is_seek o = false ->
  exists w' new,
    run_op cacache f o w = (Normal tt, w')
    /\ kReverse (self w') = true /\ kCursor (self w') = 0
    /\ kSeekOptions (self w') = None
    /\ io w' = io w /\ calls w' = calls w ++ new
    /\ Forall (fun c => delivered c = []) new.
Proof.
  destruct w as [it io0 calls0].
  destruct it as [cur done rv bs cc loc keys pr so].
  simpl. intros -> -> -> Hseek.
  destruct o as [|size| |]; try discriminate Hseek;
    destruct f, done, pr as [[]|e];
    unfold run_op, Iterator._next, Iterator._nextv, Iterator._all,
      KeyIterator._next, KeyIterator._nextv, KeyIterator._all,
      ValueIterator._next, ValueIterator._nextv, ValueIterator._all,
      kNext, kNextv, kAll, getKeyBatch;
    cbv -[List.app Z.to_nat Z.sub];
    repeat match goal with
           | |- context [Z.to_nat ?x] => destruct (Z.to_nat x)
           end;
    cbv -[List.app]; rewrite <- ?app_assoc;
    do 2 eexists; (split; [reflexivity|]);
    repeat (split; [reflexivity|]); repeat constructor.
Qed.

(** X6.  A reverse cursor on which no seek is made delivers no entry,
    whatever the store holds and whatever the range: its position starts
    at 0 and [kAdvancePrev] answers only from a position above 0.  All
    its operations return, and the store is asked for nothing but the
    listing. *)
Theorem reverse_cursor_without_seek_is_empty (cacache : Cacache) (db : Db)
    (options : Options) (f : flavor) (ops : list operation) :
  reverse options = true ->
  forallb (fun o => negb (is_seek o)) ops = true ->
  exists w,
    lifetime cacache db options f ops = (Normal tt, w)
    /\ io w = [Ls (db_kLocation db)]
    /\ Forall (fun c => delivered c = []) (calls w).
Proof.
  intros Hrev Hops. unfold lifetime.
  assert (forall w0 : world Iter,
             kReverse (self w0) = true -> kCursor (self w0) = 0 ->
             kSeekOptions (self w0) = None ->
             exists w new,
               run_ops cacache f ops w0 = (Normal tt, w)
               /\ io w = io w0 /\ calls w = calls w0 ++ new
               /\ Forall (fun c => delivered c = []) new) as Hgen.
  { clear Hrev. induction ops as [|o ops IH]; intros w0 H1 H2 H3.
    - exists w0, []. simpl. rewrite app_nil_r. repeat split; constructor.
    - simpl in Hops. apply andb_true_iff in Hops as [Ho Hops].
      apply negb_true_iff in Ho.
      destruct (reverse_idle_op cacache f o w0 H1 H2 H3 Ho)
        as (w1 & new1 & E1 & R1 & C1 & S1 & IO1 & CL1 & F1).
      destruct (IH Hops w1 R1 C1 S1) as (w2 & new2 & E2 & IO2 & CL2 & F2).
      exists w2, (new1 ++ new2). simpl. unfold bind. rewrite E1.
      split; [exact E2|]. split; [congruence|].
      split; [rewrite CL2, CL1; now rewrite app_assoc|].
      apply Forall_app; auto. }
  destruct (Hgen (kInit cacache db options)) as (w & new & E & IO & CL & F).
  - unfold kInit. destruct (cacache_ls _ _); exact Hrev.
  - unfold kInit. destruct (cacache_ls _ _); reflexivity.
  - unfold kInit. destruct (cacache_ls _ _); reflexivity.
  - exists w. split; [exact E|]. split; [rewrite IO; reflexivity|].
    rewrite CL. exact F.
Qed.

Lemma reverse_cursor_without_seek_is_empty_witness :
  (reverse (no_range true) = true
   /\ forallb (fun o => negb (is_seek o)) [Next; Nextv 3; All] = true)
  /\ exists w,
      lifetime store_abcde db0 (no_range true) Entries [Next; Nextv 3; All]
      = (Normal tt, w)
      /\ io w = [Ls (db_kLocation db0)]
      /\ Forall (fun c => delivered c = []) (calls w).
Proof.
  split; [split; reflexivity|].
  apply (@reverse_cursor_without_seek_is_empty store_abcde db0
           (no_range true) Entries [Next; Nextv 3; All]); reflexivity.
Defined.

Lemma failed_index_op (cacache : Cacache) (f : flavor) (o : operation)
    (w : world Iter) (e : error) :
  kIndexPromise (self w) = Rejected e -> kSeekOptions (self w) = None ->
  is_seek o = false ->
  run_op cacache f o w
  = (Normal tt,
     {| self := self w; io := io w;
        calls := calls w ++ [Called (Some e) []] |}).
Proof.
  destruct w as [it io0 calls0].
  destruct it as [cur done rv bs cc loc keys pr so].
  simpl. intros -> -> Hseek.
  destruct o; try discriminate Hseek; destruct f; reflexivity.
Qed.

(** X7.  A failed listing is terminal: when [cacache.ls] rejects, every
    operation of a cursor on which no seek is made, on any of the three
    cursors, invokes its callback once with that error; the cursor does
    not change and the store is asked for nothing more. *)
Theorem failed_listing_is_reported_by_every_operation (cacache : Cacache)
    (db : Db) (options : Options) (f : flavor) (ops : list operation)
    (code : string) :
  cacache_ls cacache (db_kLocation db) = LsRejected code ->
  forallb (fun o => negb (is_seek o)) ops = true ->
  lifetime cacache db options f ops
  = (Normal tt,
     {| self := self (kInit cacache db options);
        io := [Ls (db_kLocation db)];
        calls := repeat (Called (Some (CacheError code)) [])
                   (List.length ops) |}).
Proof.
  intros Hls Hops. unfold lifetime.
  assert (kIndexPromise (self (kInit cacache db options))
          = Rejected (CacheError code)) as Hpr
      by (unfold kInit; now rewrite Hls).
  assert (kSeekOptions (self (kInit cacache db options)) = None) as Hso
      by (unfold kInit; now destruct (cacache_ls _ _)).
  assert (forall w0 : world Iter,
             kIndexPromise (self w0) = Rejected (CacheError code) ->
             kSeekOptions (self w0) = None ->
             run_ops cacache f ops w0
             = (Normal tt,
                {| self := self w0; io := io w0;
                   calls := calls w0
                            ++ repeat (Called (Some (CacheError code)) [])
                                 (List.length ops) |})) as Hgen.
  { clear Hpr Hso. induction ops as [|o ops IH]; intros w0 H1 H2.
    - simpl. rewrite app_nil_r. now destruct w0.
    - simpl in Hops. apply andb_true_iff in Hops as [Ho Hops].
      apply negb_true_iff in Ho.
      simpl. unfold bind.
      rewrite (@failed_index_op cacache f o w0 _ H1 H2 Ho).
      rewrite (IH Hops); [|exact H1|exact H2].
      simpl. now rewrite <- app_assoc. }
  rewrite (Hgen _ Hpr Hso). reflexivity.
Qed.

Lemma failed_listing_is_reported_by_every_operation_witness :
  (cacache_ls store_unlistable (db_kLocation db0) = LsRejected "EACCES"
   /\ forallb (fun o => negb (is_seek o)) [Next; All] = true)
  /\ lifetime store_unlistable db0 (no_range false) Values [Next; All]
     = (Normal tt,
        {| self := self (kInit store_unlistable db0 (no_range false));
           io := [Ls (db_kLocation db0)];
           calls := repeat (Called (Some (CacheError "EACCES")) [])
                      (List.length [Next; All]) |}).
Proof.
  split; [split; reflexivity|].
  apply (@failed_listing_is_reported_by_every_operation store_unlistable
           db0 (no_range false) Values [Next; All] "EACCES"); reflexivity.
Defined.



(** ** Forward iteration *)

Lemma skipn_index {A : Type} (l : list A) (c : Z) :
  0 <= c < len l ->
  exists k,
    index l c = Some k
    /\ skipn (Z.to_nat c) l = k :: skipn (Z.to_nat (c + 1)) l.
Proof.
  intros Hc. destruct (index_in_range l Hc) as [k Hk].
  exists k. split; [exact Hk|].
  apply index_Some in Hk as [_ Hk].
  replace (Z.to_nat (c + 1)) with (S (Z.to_nat c)) by lia.
  revert Hk. generalize (Z.to_nat c). clear.
  induction l as [|a l IH]; intros [|n] H; simpl in *; try discriminate.
  - now injection H as ->.
  - now apply IH.
Qed.

Lemma skipn_len {A : Type} (l : list A) (c : Z) :
  len l <= c -> skipn (Z.to_nat c) l = [].
Proof. intros H. apply skipn_all2. unfold len in H. lia. Qed.

Lemma len_cons {A : Type} (a : A) (l : list A) : len (a :: l) = 1 + len l.
Proof. unfold len. simpl List.length. lia. Qed.

Lemma len_app {A : Type} (l1 l2 : list A) : len (l1 ++ l2) = len l1 + len l2.
Proof. unfold len. rewrite length_app. lia. Qed.

Lemma index_app_len {A : Type} (pre : list A) (k : A) (l : list A) :
  index (pre ++ k :: l) (len pre) = Some k.
Proof.
  apply index_Some. split; [unfold len; lia|].
  unfold len. rewrite Nat2Z.id.
  rewrite nth_error_app2 by lia. now rewrite Nat.sub_diag.
Qed.

Section ForwardSteps.
Variable it : Iter.
Hypothesis Hrev : kReverse it = false.

Lemma kAdvance_forward_key (c : Z) (k : Key) io0 calls0 :
  index (kIndexKeys it) c = Some k ->
  kAdvance (at_position it c false io0 calls0)
  = (Normal (str k),
     at_position it (c + 1) (len (kIndexKeys it) <=? c + 1) io0 calls0).
Proof.
  intros Hk. pose proof (index_lt_len _ _ Hk) as Hc.
  unfold kAdvance, bind, get, modify, ret, at_position. cbn.
  rewrite Hrev. unfold kAdvanceNext. cbn.
  replace (c <? len (kIndexKeys it)) with true
    by (symmetry; apply Z.ltb_lt; lia).
  rewrite Hk. reflexivity.
Qed.

Lemma kAdvance_forward_end (c : Z) io0 calls0 :
  len (kIndexKeys it) <= c ->
  kAdvance (at_position it c false io0 calls0)
  = (Normal null, at_position it c true io0 calls0).
Proof.
  intros Hc.
  unfold kAdvance, bind, get, modify, ret, at_position. cbn.
  rewrite Hrev. unfold kAdvanceNext. cbn.
  replace (c <? len (kIndexKeys it)) with false
    by (symmetry; apply Z.ltb_ge; lia).
  reflexivity.
Qed.

Lemma kAdvance_forward_done (c : Z) io0 calls0 :
  kAdvance (at_position it c true io0 calls0)
  = (Normal null, at_position it c true io0 calls0).
Proof.
  unfold kAdvance, bind, get, modify, ret, at_position. cbn.
  rewrite Hrev. reflexivity.
Qed.

(** [getKeyBatch] on a forward cursor takes the next keys, as many as
    the batch size allows. *)
Lemma getKeyBatch_loop_forward (more : nat) :
  forall (slice : list Key) (c : Z) (d : bool) io0 calls0,
    0 <= c <= len (kIndexKeys it) ->
    (d = true -> c = len (kIndexKeys it)) ->
    forallb nonempty (skipn (Z.to_nat c) (kIndexKeys it)) = true ->
    getKeyBatch_loop more slice (at_position it c d io0 calls0)
    = (Normal (slice
               ++ firstn (S more) (skipn (Z.to_nat c) (kIndexKeys it))),
       at_position it
         (c + len (firstn (S more) (skipn (Z.to_nat c) (kIndexKeys it))))
         (len (kIndexKeys it)
          <=? c + len (firstn (S more)
                         (skipn (Z.to_nat c) (kIndexKeys it))))
         io0 calls0).
Proof.
  induction more as [|more IH]; intros slice c d io0 calls0 Hc Hd Hne.
  - destruct (Z.lt_ge_cases c (len (kIndexKeys it))) as [Hlt|Hge].
    + destruct d; [specialize (Hd eq_refl); lia|].
      destruct (@skipn_index _ (kIndexKeys it) c ltac:(lia)) as (k & Hk & Hs).
      rewrite Hs in *. cbn [forallb] in Hne.
      apply andb_true_iff in Hne as [Hk0 _].
      cbn [getKeyBatch_loop]. unfold bind at 1.
      rewrite (@kAdvance_forward_key c k _ _ Hk).
      cbn [falsy]. unfold nonempty in Hk0.
      apply negb_true_iff in Hk0. rewrite Hk0.
      cbn [firstn]. rewrite len_cons. unfold len at 2 4. cbn [List.length].
      unfold ret. reflexivity.
    + rewrite (skipn_len _ Hge). cbn [firstn]. rewrite app_nil_r.
      cbn [getKeyBatch_loop]. unfold bind at 1.
      assert (c = len (kIndexKeys it)) as Ec by lia.
      destruct d.
      * rewrite kAdvance_forward_done. unfold ret.
        change (len (@nil Key)) with 0. rewrite Z.add_0_r.
        replace (len (kIndexKeys it) <=? c) with true
          by (symmetry; apply Z.leb_le; lia).
        reflexivity.
      * rewrite (@kAdvance_forward_end c _ _ Hge). unfold ret.
        change (len (@nil Key)) with 0. rewrite Z.add_0_r.
        replace (len (kIndexKeys it) <=? c) with true
          by (symmetry; apply Z.leb_le; lia).
        reflexivity.
  - destruct (Z.lt_ge_cases c (len (kIndexKeys it))) as [Hlt|Hge].
    + destruct d; [specialize (Hd eq_refl); lia|].
      destruct (@skipn_index _ (kIndexKeys it) c ltac:(lia)) as (k & Hk & Hs).
      rewrite Hs in *. cbn [forallb] in Hne.
      apply andb_true_iff in Hne as [Hk0 Hne].
      cbn [getKeyBatch_loop]. unfold bind at 1.
      rewrite (@kAdvance_forward_key c k _ _ Hk).
      cbn [falsy]. unfold nonempty in Hk0.
      apply negb_true_iff in Hk0. rewrite Hk0.
      rewrite IH; [| lia | intros H; apply Z.leb_le in H; lia | exact Hne].
      cbn [firstn]. rewrite len_cons.
      rewrite <- app_assoc. cbn [List.app].
      rewrite !Z.add_assoc. reflexivity.
    + rewrite (skipn_len _ Hge). cbn [firstn]. rewrite app_nil_r.
      cbn [getKeyBatch_loop]. unfold bind at 1.
      assert (c = len (kIndexKeys it)) as Ec by lia.
      destruct d.
      * rewrite kAdvance_forward_done. unfold ret.
        change (len (@nil Key)) with 0. rewrite Z.add_0_r.
        replace (len (kIndexKeys it) <=? c) with true
          by (symmetry; apply Z.leb_le; lia).
        reflexivity.
      * rewrite (@kAdvance_forward_end c _ _ Hge). unfold ret.
        change (len (@nil Key)) with 0. rewrite Z.add_0_r.
        replace (len (kIndexKeys it) <=? c) with true
          by (symmetry; apply Z.leb_le; lia).
        reflexivity.
Qed.

(** The [while] loop of [KeyIterator._all] on a forward cursor takes
    every key that is ahead. *)
Lemma all_loop_forward (fuel : nat) :
  forall (acc : list value) (c : Z) (d : bool) io0 calls0,
    0 <= c <= len (kIndexKeys it) ->
    (d = true -> c = len (kIndexKeys it)) ->
    (Z.to_nat (len (kIndexKeys it) - c) < fuel)%nat ->
    KeyIterator.all_loop fuel acc (at_position it c d io0 calls0)
    = (Normal (acc ++ map str (skipn (Z.to_nat c) (kIndexKeys it))),
       at_position it (len (kIndexKeys it)) true io0 calls0).
Proof.
  induction fuel as [|fuel IH]; intros acc c d io0 calls0 Hc Hd Hfuel;
    [lia|].
  cbn [KeyIterator.all_loop]. unfold bind at 1, get at 1.
  cbn [fst snd self at_position forward_at setDone setCursor kDone].
  destruct d.
  - rewrite (Hd eq_refl). rewrite skipn_len by lia.
    cbn [map]. rewrite app_nil_r. reflexivity.
  - destruct (Z.lt_ge_cases c (len (kIndexKeys it))) as [Hlt|Hge].
    + destruct (@skipn_index _ (kIndexKeys it) c ltac:(lia)) as (k & Hk & Hs).
      unfold bind at 1.
      change {| self := setDone false (setCursor c it); io := io0;
                calls := calls0 |}
        with (at_position it c false io0 calls0).
      rewrite (@kAdvance_forward_key c k _ _ Hk). cbn [is_null].
      rewrite IH; [| lia | intros H; apply Z.leb_le in H; lia | lia].
      rewrite Hs. cbn [map]. rewrite <- app_assoc. reflexivity.
    + unfold bind at 1.
      change {| self := setDone false (setCursor c it); io := io0;
                calls := calls0 |}
        with (at_position it c false io0 calls0).
      rewrite (@kAdvance_forward_end c _ _ Hge). cbn [is_null].
      rewrite skipn_len by lia. cbn [map]. rewrite app_nil_r.
      assert (c = len (kIndexKeys it)) as -> by lia. reflexivity.
Qed.
End ForwardSteps.

Section Fetching.
Variable cacache : Cacache.
Variable location : option string.

Lemma fetch_readable {S : Type} (k : Key) (w : world S) :
  readable cacache location k = true ->
  fetch cacache location k w
  = (Normal (fetched cacache location k),
     {| self := self w; io := io w ++ [Get location k];
        calls := calls w |}).
Proof.
  unfold readable, fetched, fetch, bind, emit, ret, throw.
  destruct (cacache_get cacache location k); [reflexivity|].
  now intros ->.
Qed.

(** The fetches of a batch: one request per key, in the order of the
    keys, and the answers in that order. *)
Lemma pMap_fetch {S : Type} (ks : list Key) :
  forall w : world S,
    forallb (readable cacache location) ks = true ->
    pMap ks (fun key => fetch cacache location key) w
    = (Normal (map (fetched cacache location) ks),
       {| self := self w; io := io w ++ map (Get location) ks;
          calls := calls w |}).
Proof.
  induction ks as [|k ks IH]; intros w Hr.
  - cbn. rewrite app_nil_r. now destruct w.
  - cbn [forallb] in Hr. apply andb_true_iff in Hr as [Hk Hr].
    cbn [pMap map]. unfold bind at 1. rewrite (@fetch_readable _ k _ Hk).
    unfold bind at 1. rewrite (IH _ Hr). unfold ret. cbn [self io calls].
    rewrite <- app_assoc. reflexivity.
Qed.

Lemma present_readable (k : Key) :
  present cacache location k = true -> readable cacache location k = true.
Proof.
  unfold present, readable.
  now destruct (cacache_get cacache location k).
Qed.

Lemma forallb_present_readable (ks : list Key) :
  forallb (present cacache location) ks = true ->
  forallb (readable cacache location) ks = true.
Proof.
  induction ks as [|k ks IH]; [reflexivity|]. cbn [forallb].
  intros H. apply andb_true_iff in H as [Hk H].
  now rewrite (@present_readable k Hk), IH.
Qed.

Lemma get_data_fetched_present {S : Type} (k : Key) (w : world S) :
  present cacache location k = true ->
  get_data (fetched cacache location k) w
  = (Normal (value_of cacache location k), w).
Proof.
  unfold present, fetched, value_of.
  now destruct (cacache_get cacache location k).
Qed.

Lemma forEach_push_present (ks : list Key) :
  forall (pre : list Key) (w : world Iter),
    forallb (present cacache location) ks = true ->
    forEach_push (pre ++ ks) (len pre)
      (map (fetched cacache location) ks) w
    = (Normal (map (entry_of cacache location) ks), w).
Proof.
  induction ks as [|k ks IH]; intros pre w Hp; [reflexivity|].
  cbn [forallb] in Hp. apply andb_true_iff in Hp as [Hk Hp].
  cbn [map forEach_push]. unfold bind at 1.
  rewrite (@get_data_fetched_present _ k _ Hk). unfold bind at 1.
  replace (len pre + 1) with (len (pre ++ [k]))
    by (rewrite len_app; reflexivity).
  replace (pre ++ k :: ks) with ((pre ++ [k]) ++ ks)
    by (now rewrite <- app_assoc).
  rewrite (IH _ _ Hp). unfold ret.
  rewrite <- app_assoc. cbn [List.app]. rewrite index_app_len.
  reflexivity.
Qed.

Lemma push_entries_present (ks : list Key) :
  forall (pre : list Key) (w : world Iter),
    forallb (present cacache location) ks = true ->
    push_entries ks (len pre)
      (arr (map (fetched cacache location) (pre ++ ks))) w
    = (Normal (map (entry_of cacache location) ks), w).
Proof.
  induction ks as [|k ks IH]; intros pre w Hp; [reflexivity|].
  cbn [forallb] in Hp. apply andb_true_iff in Hp as [Hk Hp].
  cbn [map push_entries]. unfold bind at 1. unfold elem, ret.
  rewrite map_app. cbn [map].
  replace (len pre) with (len (map (fetched cacache location) pre))
    by (unfold len; now rewrite length_map).
  rewrite index_app_len.
  unfold bind at 1. rewrite (@get_data_fetched_present _ k _ Hk).
  unfold bind at 1.
  replace (len (map (fetched cacache location) pre) + 1)
    with (len (pre ++ [k]))
    by (rewrite len_app; unfold len; rewrite length_map; reflexivity).
  replace (map (fetched cacache location) pre
           ++ fetched cacache location k
              :: map (fetched cacache location) ks)
    with (map (fetched cacache location) ((pre ++ [k]) ++ ks))
    by (rewrite <- app_assoc, map_app; reflexivity).
  rewrite (IH _ _ Hp). reflexivity.
Qed.

(** [values.map(value => value[1])] on the pairs of an entry cursor. *)
Lemma map_elem1_entries {S : Type} (ks : list Key) (w : world S) :
  map_elem1 (arr (map (entry_of cacache location) ks)) w
  = (Normal (arr (map (value_of cacache location) ks)), w).
Proof.
  unfold map_elem1.
  assert (pMap (map (entry_of cacache location) ks)
            (fun value => elem value 1) w
          = (Normal (map (value_of cacache location) ks), w)) as E.
  { induction ks as [|k ks IH]; [reflexivity|].
    cbn [map pMap]. unfold bind at 1. unfold entry_of at 1.
    cbn [elem]. unfold ret at 1. unfold bind at 1. rewrite IH.
    reflexivity. }
  unfold bind. rewrite E. reflexivity.
Qed.
End Fetching.

Lemma catch_nextTick {S : Type} (m : M S unit) (h : error -> M S unit)
    (w : world S) :
  catch (nextTick m) h w = nextTick m w.
Proof.
  unfold nextTick, catch, deliver.
  destruct (m w) as [[[]|e|] w']; reflexivity.
Qed.

Lemma nextTick_not_throw {S : Type} (m : M S unit) (w : world S) :
  forall e w', nextTick m w <> (Throw e, w').
Proof.
  intros e w'. unfold nextTick, catch, deliver.
  destruct (m w) as [[[]|e0|] w0]; discriminate.
Qed.

Lemma skipn_firstn_length {A : Type} (n : nat) (l : list A) :
  skipn (List.length (firstn n l)) l = skipn n l.
Proof.
  destruct (Nat.le_gt_cases n (List.length l)) as [H|H].
  - now rewrite firstn_length_le.
  - rewrite firstn_all2 by lia. rewrite skipn_all.
    symmetry. apply skipn_all2. lia.
Qed.

Lemma skipn_take {A : Type} (n : nat) (c : Z) (l : list A) :
  0 <= c ->
  skipn (Z.to_nat c) l
  = firstn n (skipn (Z.to_nat c) l)
    ++ skipn (Z.to_nat (c + len (firstn n (skipn (Z.to_nat c) l)))) l.
Proof.
  intros Hc. unfold len.
  rewrite Z2Nat.inj_add by lia. rewrite Nat2Z.id.
  rewrite Nat.add_comm, <- skipn_skipn.
  rewrite skipn_firstn_length. symmetry. apply firstn_skipn.
Qed.

Lemma len_skipn {A : Type} (c : Z) (l : list A) :
  0 <= c <= len l -> len (skipn (Z.to_nat c) l) = len l - c.
Proof. intros H. unfold len in *. rewrite length_skipn. lia. Qed.

Lemma len_firstn_le {A : Type} (n : nat) (l : list A) :
  len (firstn n l) <= len l.
Proof.
  unfold len. rewrite length_firstn. lia.
Qed.

Lemma getMany_readable {S : Type} (cacache : Cacache)
    (location : option string) (keys : list Key) (concurrency : Z)
    (callback : option error -> value -> M S unit) (w : world S) :
  keys <> [] ->
  forallb (readable cacache location) keys = true ->
  getMany cacache location keys concurrency callback w
  = floating
      (catch (callback None (arr (map (fetched cacache location) keys)))
         (fun err => callback (Some err) undefined))
      {| self := self w; io := io w ++ map (Get location) keys;
         calls := calls w |}.
Proof.
  intros Hne Hr. unfold getMany.
  replace (len keys =? 0) with false.
  2:{ symmetry. apply Z.eqb_neq. destruct keys; [congruence|].
      rewrite len_cons. unfold len. lia. }
  unfold bind at 1, ret at 1.
  unfold floating, catch, bind.
  rewrite (@pMap_fetch cacache location _ keys _ Hr).
  reflexivity.
Qed.

Section ForwardAll.
Variable cacache : Cacache.
Variable it : Iter.
Hypothesis Hrev : kReverse it = false.
Variable location : option string.
Variables concurrency batchSize : Z.
Variable callback : option error -> value -> M Iter unit.

(** The [loop] of [kAll] on a forward cursor fetches every key that is
    ahead, batch after batch, and hands all the pairs to the callback in
    one array. *)
Lemma kAll_loop_forward (fuel : nat) :
  forall (result : list value) (c : Z) (d : bool) io0 calls0,
    0 <= c <= len (kIndexKeys it) ->
    (d = true -> c = len (kIndexKeys it)) ->
    (Z.to_nat (len (kIndexKeys it) - c) < fuel)%nat ->
    forallb nonempty (skipn (Z.to_nat c) (kIndexKeys it)) = true ->
    forallb (present cacache location)
      (skipn (Z.to_nat c) (kIndexKeys it)) = true ->
    kAll_loop cacache fuel location concurrency batchSize result callback
      (at_position it c d io0 calls0)
    = nextTick
        (callback None
           (arr (result
                 ++ map (entry_of cacache location)
                      (skipn (Z.to_nat c) (kIndexKeys it)))))
        (at_position it (len (kIndexKeys it)) true
           (io0 ++ map (Get location) (skipn (Z.to_nat c) (kIndexKeys it)))
           calls0).
Proof.
  induction fuel as [|fuel IH];
    intros result c d io0 calls0 Hc Hd Hfuel Hne Hpr; [lia|].
  cbn [kAll_loop]. unfold bind at 1. unfold getKeyBatch.
  rewrite (@getKeyBatch_loop_forward it Hrev _ [] c d io0 calls0 Hc Hd Hne).
  cbn [List.app].
  set (n := S (Z.to_nat (batchSize - 1))).
  pose proof (@skipn_take _ n c (kIndexKeys it) ltac:(lia)) as Hsplit.
  set (taken := firstn n (skipn (Z.to_nat c) (kIndexKeys it))) in *.
  destruct taken as [|k taken'] eqn:Et.
  - assert (skipn (Z.to_nat c) (kIndexKeys it) = []) as Hnil.
    { destruct (skipn (Z.to_nat c) (kIndexKeys it)); [reflexivity|].
      subst taken. discriminate Et. }
    rewrite Hnil. cbn [map]. rewrite !app_nil_r.
    change (len (@nil Key)) with 0. rewrite Z.add_0_r. cbn [Z.eqb].
    assert (c = len (kIndexKeys it)) as Ec.
    { pose proof (len_skipn (kIndexKeys it) Hc) as Hl.
      rewrite Hnil in Hl. change (len (@nil Key)) with 0 in Hl. lia. }
    rewrite Ec, Z.leb_refl. reflexivity.
  - rewrite <- Et in *.
    assert (taken <> []) as Htne by (rewrite Et; discriminate).
    assert (1 <= len taken) as Hlen1
        by (rewrite Et, len_cons; unfold len; lia).
    assert (len taken <= len (kIndexKeys it) - c) as Hlen2.
    { rewrite <- (len_skipn (kIndexKeys it) Hc). apply len_firstn_le. }
    replace (len taken =? 0) with false by (symmetry; apply Z.eqb_neq; lia).
    rewrite Hsplit in Hne, Hpr.
    rewrite forallb_app in Hne, Hpr.
    apply andb_true_iff in Hne as [Hne1 Hne2].
    apply andb_true_iff in Hpr as [Hpr1 Hpr2].
    rewrite getMany_readable;
      [|exact Htne|now apply forallb_present_readable].
    unfold at_position in *. cbn [self io calls].
    unfold floating at 1, catch at 1, catch at 1, bind at 1.
    change 0 with (len (@nil Key)) at 1.
    change taken with ([] ++ taken) at 1.
    rewrite (@forEach_push_present cacache location taken [] _ Hpr1).
    replace (len (map (fetched cacache location) taken) =? 0) with false
      by (symmetry; apply Z.eqb_neq; unfold len in *;
          rewrite length_map; lia).
    unfold nextTick at 1, catch at 1.
    rewrite IH; [| lia | intros H; apply Z.leb_le in H; lia | lia
                 | exact Hne2 | exact Hpr2].
    rewrite Hsplit. rewrite !map_app, !app_assoc.
    match goal with
    | |- context [nextTick ?m ?w] =>
        pose proof (@nextTick_not_throw _ m w) as Hnt;
        destruct (nextTick m w) as [[[]|e|] w']
    end; [reflexivity| |reflexivity].
    now elim (Hnt e w').
Qed.
End ForwardAll.

(** X9.  [all()] on a forward key cursor whose index is ready and on
    which no seek is pending delivers, in one array and in snapshot
    order, every key from the cursor's position on, asks the store for
    nothing, and leaves the cursor done at the end of the snapshot. *)
Theorem key_cursor_all_delivers_keys_ahead (w : world Iter) :
  forward_ready (self w) ->
  KeyIterator._all w
  = (Normal tt,
     {| self := forward_at (self w) (len (kIndexKeys (self w))) true;
        io := io w;
        calls := calls w ++ [Called None [arr (map str (ahead (self w)))]] |}).
Proof.
  destruct w as [it io0 calls0]. cbn [self io calls].
  intros (Hrev & Hso & Hpr & Hc & Hd).
  unfold KeyIterator._all, floating, catch. unfold bind at 1.
  rewrite kAwaitIndex_ready by assumption.
  unfold bind at 1, get at 1. cbn [self].
  destruct it as [cur done rv bs cc loc keys pr so].
  cbn [kReverse kSeekOptions kIndexPromise kCursor kIndexKeys kDone] in *.
  subst rv so pr. unfold ahead. cbn [kCursor kIndexKeys].
  set (it := {| kCursor := cur; kDone := done; kReverse := false;
                kBatchSize := bs; kConcurrency := cc; kLocation := loc;
                kIndexKeys := keys; kIndexPromise := Fulfilled tt;
                kSeekOptions := None |}).
  change {| self := it; io := io0; calls := calls0 |}
    with (at_position it cur done io0 calls0).
  destruct done.
  - rewrite (Hd eq_refl). rewrite skipn_len by lia.
    reflexivity.
  - unfold bind at 1.
    rewrite (@all_loop_forward it eq_refl (remaining it) [] cur false
               io0 calls0 Hc Hd);
      [|unfold remaining; cbn; lia].
    reflexivity.
Qed.

Lemma key_cursor_all_delivers_keys_ahead_witness :
  forward_ready (self (kInit store_abcde db0 (no_range false)))
  /\ KeyIterator._all (kInit store_abcde db0 (no_range false))
     = (Normal tt,
        {| self := forward_at (self (kInit store_abcde db0 (no_range false)))
                     (len (kIndexKeys
                             (self (kInit store_abcde db0 (no_range false)))))
                     true;
           io := io (kInit store_abcde db0 (no_range false));
           calls := calls (kInit store_abcde db0 (no_range false))
                    ++ [Called None
                          [arr (map str
                                  (ahead (self (kInit store_abcde db0
                                                  (no_range false)))))]] |}).
Proof.
  assert (forward_ready (self (kInit store_abcde db0 (no_range false))))
    as H.
  { repeat split; try reflexivity; try discriminate. }
  split; [exact H|].
  apply (@key_cursor_all_delivers_keys_ahead
           (kInit store_abcde db0 (no_range false)) H).
Defined.

Section ForwardCursor.
Variable cacache : Cacache.
Variable w : world Iter.
Hypothesis Hready : forward_ready (self w).
Hypothesis Hnotdone : kDone (self w) = false.
Hypothesis Hnonempty : forallb nonempty (ahead (self w)) = true.
Hypothesis Hpresent :
  forallb (present cacache (kLocation (self w))) (ahead (self w)) = true.

Lemma kAll_forward (callback : option error -> value -> M Iter unit) :
  kAll cacache callback w
  = floating
      (nextTick
         (callback None
            (arr (map (entry_of cacache (kLocation (self w)))
                    (ahead (self w))))))
      {| self := forward_at (self w) (len (kIndexKeys (self w))) true;
         io := io w ++ map (Get (kLocation (self w))) (ahead (self w));
         calls := calls w |}.
Proof.
  revert Hready Hnotdone Hnonempty Hpresent.
  destruct w as [it io0 calls0]. cbn [self io calls].
  intros (Hrev & Hso & Hpr & Hc & Hd) Hnd Hne Hp.
  unfold kAll. unfold floating at 1, catch at 1, catch at 1.
  unfold bind at 1.
  rewrite kAwaitIndex_ready by assumption.
  unfold bind at 1, get at 1. cbn [self]. rewrite Hnd.
  destruct it as [cur done rv bs cc loc keys pr so].
  cbn [kReverse kSeekOptions kIndexPromise kCursor kIndexKeys kDone
         kLocation kConcurrency kBatchSize] in *.
  subst rv so pr done. unfold ahead in *. cbn [kCursor kIndexKeys] in *.
  set (it := {| kCursor := cur; kDone := false; kReverse := false;
                kBatchSize := bs; kConcurrency := cc; kLocation := loc;
                kIndexKeys := keys; kIndexPromise := Fulfilled tt;
                kSeekOptions := None |}).
  change {| self := it; io := io0; calls := calls0 |}
    with (at_position it cur false io0 calls0).
  unfold nextTick at 1, catch at 1.
  rewrite (@kAll_loop_forward cacache it eq_refl loc cc bs callback
             (S (remaining it)) [] cur false io0 calls0 Hc Hd);
    [|unfold remaining; cbn; lia|exact Hne|exact Hp].
  cbn [List.app].
  unfold floating at 1, catch at 1.
  subst it. cbn [kIndexKeys]. unfold at_position.
  match goal with
  | |- context [nextTick ?m ?w0] =>
      pose proof (@nextTick_not_throw _ m w0) as Hnt;
      destruct (nextTick m w0) as [[[]|e|] w'] eqn:E
  end.
  - reflexivity.
  - now elim (Hnt e w').
  - reflexivity.
Qed.

End ForwardCursor.





Section ForwardBatch.
Variable cacache : Cacache.
Variable w : world Iter.
Variable size : Z.
Hypothesis Hready : forward_ready (self w).
Hypothesis Hnotdone : kDone (self w) = false.
Hypothesis Hinside : kCursor (self w) < len (kIndexKeys (self w)).
Hypothesis Hnonempty : forallb nonempty (ahead (self w)) = true.
Hypothesis Hpresent :
  forallb (present cacache (kLocation (self w))) (ahead (self w)) = true.

(** The keys [nextv(size)] takes: [size] of them, one when [size] is
    below 1, fewer when fewer are ahead. *)
Let taken : list Key :=
  firstn (S (Z.to_nat (size - 1))) (ahead (self w)).

Lemma len_taken :
  len taken
  = Z.min (Z.max 1 size)
      (len (kIndexKeys (self w)) - kCursor (self w)).
Proof.
  destruct Hready as (_ & _ & _ & Hc & _).
  unfold taken, ahead, len. rewrite length_firstn, length_skipn.
  unfold len in *. lia.
Qed.

Lemma kNextv_forward (callback : option error -> value -> M Iter unit) :
  kNextv cacache size callback w
  = nextTick
      (callback None
         (arr (map (entry_of cacache (kLocation (self w))) taken)))
      {| self := forward_at (self w) (kCursor (self w) + len taken)
                   (len (kIndexKeys (self w))
                    <=? kCursor (self w) + len taken);
         io := io w ++ map (Get (kLocation (self w))) taken;
         calls := calls w |}.
Proof.
  pose proof len_taken as Hlen. unfold taken in *. clear taken.
  revert Hready Hnotdone Hinside Hnonempty Hpresent Hlen.
  destruct w as [it io0 calls0]. cbn [self io calls].
  intros (Hrev & Hso & Hpr & Hc & Hd) Hnd Hin Hne Hp Hlen.
  unfold kNextv. unfold floating at 1, catch at 1, catch at 1.
  unfold bind at 1.
  rewrite kAwaitIndex_ready by assumption.
  unfold bind at 1, get at 1. cbn [self].
  destruct it as [cur done rv bs cc loc keys pr so].
  cbn [kReverse kSeekOptions kIndexPromise kCursor kIndexKeys kDone
         kLocation kConcurrency kBatchSize] in *.
  subst rv so pr done. unfold ahead in *. cbn [kCursor kIndexKeys] in *.
  set (it := {| kCursor := cur; kDone := false; kReverse := false;
                kBatchSize := bs; kConcurrency := cc; kLocation := loc;
                kIndexKeys := keys; kIndexPromise := Fulfilled tt;
                kSeekOptions := None |}).
  change {| self := it; io := io0; calls := calls0 |}
    with (at_position it cur false io0 calls0).
  unfold bind at 1. unfold getKeyBatch.
  rewrite (@getKeyBatch_loop_forward it eq_refl _ [] cur false io0 calls0
             Hc Hd Hne).
  cbn [List.app]. subst it. cbn [kIndexKeys]. unfold at_position.
  set (tk := firstn (S (Z.to_nat (size - 1))) (skipn (Z.to_nat cur) keys))
    in *.
  assert (tk <> []) as Htne.
  { intros E. rewrite E in Hlen. change (len (@nil Key)) with 0 in Hlen.
    lia. }
  assert (forallb (present cacache loc) tk = true) as Hptk.
  { rewrite (@skipn_take _ (S (Z.to_nat (size - 1))) cur keys) in Hp
      by lia.
    rewrite forallb_app in Hp. now apply andb_true_iff in Hp as [Hp _]. }
  rewrite getMany_readable; [|exact Htne|now apply forallb_present_readable].
  cbn [self io calls].
  unfold floating at 1, catch at 1, catch at 1, bind at 1.
  change 0 with (len (@nil Key)) at 1.
  change (map (fetched cacache loc) tk)
    with (map (fetched cacache loc) ([] ++ tk)).
  rewrite (@push_entries_present cacache loc tk [] _ Hptk).
  match goal with
  | |- context [nextTick ?m ?w0] =>
      pose proof (@nextTick_not_throw _ m w0) as Hnt;
      destruct (nextTick m w0) as [[[]|e|] w'] eqn:E
  end.
  - reflexivity.
  - now elim (Hnt e w').
  - reflexivity.
Qed.

End ForwardBatch.





(** X14.  [next()] on a forward entry cursor that is ready and stands on
    a key that is not the empty string: the store is asked for that key
    and the cursor moves one position on (done when that was the last
    key).  When the value is there the callback receives the key and its
    data; when the read is rejected, the entry missing or otherwise, an
    uncaught TypeError is raised and the callback is not invoked. *)
Theorem entry_cursor_next_on_a_key (cacache : Cacache) (w : world Iter)
    (k : Key) :
  forward_ready (self w) ->
  kDone (self w) = false ->
  index (kIndexKeys (self w)) (kCursor (self w)) = Some k ->
  nonempty k = true ->
  Iterator._next cacache w
  = (Normal tt,
     {| self := forward_at (self w) (kCursor (self w) + 1)
                  (len (kIndexKeys (self w)) <=? kCursor (self w) + 1);
        io := io w ++ [Get (kLocation (self w)) k];
        calls := calls w
                 ++ [match cacache_get cacache (kLocation (self w)) k with
                     | GetResolved d => Called None [str k; buf d]
                     | GetRejected _ => Uncaught TypeError
                     end] |}).
Proof.
  destruct w as [it io0 calls0]. cbn [self io calls].
  intros (Hrev & Hso & Hpr & Hc & Hd) Hnd Hk Hne.
  unfold Iterator._next, kNext. unfold floating at 1, catch at 1, catch at 1.
  unfold bind at 1.
  rewrite kAwaitIndex_ready by assumption.
  destruct it as [cur done rv bs cc loc keys pr so].
  cbn [kReverse kSeekOptions kIndexPromise kCursor kIndexKeys kDone
         kLocation] in *.
  subst rv so pr done.
  set (it := {| kCursor := cur; kDone := false; kReverse := false;
                kBatchSize := bs; kConcurrency := cc; kLocation := loc;
                kIndexKeys := keys; kIndexPromise := Fulfilled tt;
                kSeekOptions := None |}).
  change {| self := it; io := io0; calls := calls0 |}
    with (at_position it cur false io0 calls0).
  unfold bind at 1.
  rewrite (@kAdvance_forward_key it eq_refl cur k io0 calls0 Hk).
  cbn [falsy]. unfold nonempty in Hne. apply negb_true_iff in Hne.
  rewrite Hne.
  subst it. unfold at_position, forward_at, setDone, setCursor.
  cbn [kIndexKeys kCursor kDone kReverse kBatchSize kConcurrency kLocation
         kIndexPromise kSeekOptions].
  unfold bind at 1, get at 1. cbn [self kLocation].
  unfold getValue, fetch, floating, catch, bind, emit, ret, throw,
    get_data, nextTick, catch, user, deliver.
  cbn [self io calls].
  destruct (cacache_get cacache loc k) as [d|code]; [reflexivity|].
  destruct (String.eqb code "ENOENT"); reflexivity.
Qed.

Lemma entry_cursor_next_on_a_key_witness :
  (forward_ready (self (kInit store_abcde db0 (no_range false)))
   /\ kDone (self (kInit store_abcde db0 (no_range false))) = false
   /\ index (kIndexKeys (self (kInit store_abcde db0 (no_range false))))
        (kCursor (self (kInit store_abcde db0 (no_range false))))
      = Some "a"
   /\ nonempty "a" = true)
  /\ calls (snd (Iterator._next store_abcde
                   (kInit store_abcde db0 (no_range false))))
     = [Called None [str "a"; buf "1"]].
Proof.
  assert (forward_ready (self (kInit store_abcde db0 (no_range false))))
    as H by (repeat split; try reflexivity; try discriminate).
  split; [repeat split; try reflexivity; try discriminate|].
  rewrite (@entry_cursor_next_on_a_key store_abcde
             (kInit store_abcde db0 (no_range false)) "a" H eq_refl eq_refl
             eq_refl).
  reflexivity.
Defined.

(** X15.  A key that is the empty string ends the sequence early: on a
    forward entry cursor standing on it, [next()] reports the end of the
    sequence (the callback receives no key and no value) and asks the
    store for nothing, although the cursor moves on and, when keys
    follow, is not done. *)
Theorem entry_cursor_next_on_the_empty_key (cacache : Cacache)
    (w : world Iter) :
  forward_ready (self w) ->
  kDone (self w) = false ->
  index (kIndexKeys (self w)) (kCursor (self w)) = Some "" ->
  Iterator._next cacache w
  = (Normal tt,
     {| self := forward_at (self w) (kCursor (self w) + 1)
                  (len (kIndexKeys (self w)) <=? kCursor (self w) + 1);
        io := io w;
        calls := calls w ++ [Called None [undefined; undefined]] |}).
Proof.
  destruct w as [it io0 calls0]. cbn [self io calls].
  intros (Hrev & Hso & Hpr & Hc & Hd) Hnd Hk.
  unfold Iterator._next, kNext. unfold floating at 1, catch at 1, catch at 1.
  unfold bind at 1.
  rewrite kAwaitIndex_ready by assumption.
  destruct it as [cur done rv bs cc loc keys pr so].
  cbn [kReverse kSeekOptions kIndexPromise kCursor kIndexKeys kDone
         kLocation] in *.
  subst rv so pr done.
  set (it := {| kCursor := cur; kDone := false; kReverse := false;
                kBatchSize := bs; kConcurrency := cc; kLocation := loc;
                kIndexKeys := keys; kIndexPromise := Fulfilled tt;
                kSeekOptions := None |}).
  change {| self := it; io := io0; calls := calls0 |}
    with (at_position it cur false io0 calls0).
  unfold bind at 1.
  rewrite (@kAdvance_forward_key it eq_refl cur "" io0 calls0 Hk).
  reflexivity.
Qed.

Lemma entry_cursor_next_on_the_empty_key_witness :
  (forward_ready (self (kInit (store_of [("", "0"); ("a", "1")]) db0
                          (no_range false)))
   /\ kDone (self (kInit (store_of [("", "0"); ("a", "1")]) db0
                     (no_range false))) = false
   /\ index (kIndexKeys (self (kInit (store_of [("", "0"); ("a", "1")]) db0
                                 (no_range false))))
        (kCursor (self (kInit (store_of [("", "0"); ("a", "1")]) db0
                          (no_range false))))
      = Some "")
  /\ Iterator._next (store_of [("", "0"); ("a", "1")])
       (kInit (store_of [("", "0"); ("a", "1")]) db0 (no_range false))
     = (Normal tt,
        {| self := forward_at
                     (self (kInit (store_of [("", "0"); ("a", "1")]) db0
                              (no_range false)))
                     1 false;
           io := [Ls "/db"];
           calls := [Called None [undefined; undefined]] |}).
Proof.
  assert (forward_ready (self (kInit (store_of [("", "0"); ("a", "1")]) db0
                                 (no_range false))))
    as H by (repeat split; try reflexivity; try discriminate).
  split; [repeat split; try reflexivity; try discriminate|].
  rewrite (@entry_cursor_next_on_the_empty_key
             (store_of [("", "0"); ("a", "1")])
             (kInit (store_of [("", "0"); ("a", "1")]) db0 (no_range false))
             H eq_refl eq_refl).
  reflexivity.
Defined.

(** ** From the listing to the entries *)

Lemma forallb_Permutation {A : Type} (f : A -> bool) (l l' : list A) :
  Permutation l l' -> forallb f l = true -> forallb f l' = true.
Proof.
  intros Hp H. rewrite forallb_forall in *.
  intros x Hx. apply H. eapply Permutation_in; [|exact Hx].
  now apply Permutation_sym.
Qed.



(** ** Seeking a key of the snapshot *)

Lemma handleSeek_stored_key (options : SeekOptions) (it : Iter) :
  kReverse it = false ->
  ascending (kIndexKeys it) = true ->
  len (kIndexKeys it) < 2 ^ 30 ->
  In (target options) (kIndexKeys it) ->
  exists r,
    index (kIndexKeys it) r = Some (target options)
    /\ handleSeek options it
       = setDone
           (len (kIndexKeys it)
            <=? (if has (seek_gt options) then r + 1 else r))
           (setCursor (if has (seek_gt options) then r + 1 else r) it).
Proof.
  intros Hrev Hasc Hlen Hin.
  set (t := target options) in *. set (keys := kIndexKeys it) in *.
  destruct (@binarySearch_result keys t Hlen) as [Hrange Hfound].
  destruct (@binarySearch_insertion_point keys t Hasc Hlen) as [_ Hpos].
  specialize (Hpos Hin). specialize (Hfound Hpos).
  exists (binarySearch keys (Bound t)). split; [exact Hfound|].
  pose proof (index_lt_len _ _ Hfound) as Hr.
  destruct (@index_in_range _ keys 0 ltac:(lia)) as [k0 Hk0].
  destruct (@index_in_range _ keys (len keys - 1) ltac:(lia)) as [kl Hkl].
  assert (String.ltb t k0 = false) as Hb.
  { pose proof (@ascending_index keys 0 (binarySearch keys (Bound t))
                  k0 t Hasc (proj1 Hr) Hk0 Hfound) as H.
    rewrite leb_ltb in H. now apply negb_true_iff in H. }
  assert (String.ltb kl t = false) as Ha.
  { pose proof (@ascending_index keys (binarySearch keys (Bound t))
                  (len keys - 1) t kl Hasc ltac:(lia) Hfound Hkl) as H.
    rewrite leb_ltb in H. now apply negb_true_iff in H. }
  unfold handleSeek. rewrite Hrev. cbn [negb].
  fold keys. fold t. rewrite Hk0, Hkl, compare_lt0, compare_gt0, Hb, Ha.
  replace (binarySearch keys (Bound t) <? 0) with false
    by (symmetry; apply Z.ltb_ge; lia).
  destruct (has (seek_gt options)); reflexivity.
Qed.

(** X17.  On a forward cursor whose index is ready and whose snapshot is
    in ascending order, a seek to a key of the snapshot puts the cursor,
    when the next operation applies it, on a position holding that key,
    or on the position after it when the seek carries [gt]; whatever the
    cursor was before, and whatever seek was pending.  Without [gt],
    [next()] on the key cursor then delivers the key that was sought. *)
Theorem seek_to_a_key_of_the_snapshot (cacache : Cacache) (w : world Iter)
    (t : Key) (sgt sgte slt slte : option bool) :
  kReverse (self w) = false ->
  kIndexPromise (self w) = Fulfilled tt ->
  ascending (kIndexKeys (self w)) = true ->
  len (kIndexKeys (self w)) < 2 ^ 30 ->
  In t (kIndexKeys (self w)) ->
  (exists r w1,
     index (kIndexKeys (self w)) r = Some t
     /\ (_seek t sgt sgte slt slte ;; kAwaitIndex) w = (Normal tt, w1)
     /\ kCursor (self w1) = (if has sgt then r + 1 else r)
     /\ kDone (self w1) = (len (kIndexKeys (self w)) <=? kCursor (self w1))
     /\ kSeekOptions (self w1) = None)
  /\ (sgt = None ->
      exists w',
        run_ops cacache Keys [Seek t sgt sgte slt slte; Next] w
        = (Normal tt, w')
        /\ calls w' = calls w ++ [Called None [str t]]
        /\ io w' = io w).
Proof.
  intros Hrev Hpr Hasc Hlen Hin.
  set (options := {| target := t; seek_gt := sgt; seek_gte := sgte;
                     seek_lt := slt; seek_lte := slte |}).
  set (ws := {| self := setSeekOptions (Some options) (self w);
                io := io w; calls := calls w |}).
  set (it1 := setSeekOptions None (self ws)).
  assert (kAwaitIndex ws
          = (Normal tt,
             {| self := handleSeek options it1;
                io := io w; calls := calls w |})) as Eawait.
  { apply (@kAwaitIndex_seek ws options); [reflexivity|exact Hpr]. }
  destruct (@handleSeek_stored_key options it1 Hrev Hasc Hlen Hin)
    as (r & Hr & Eseek).
  rewrite Eseek in Eawait.
  change (seek_gt options) with sgt in Eawait.
  change (kIndexKeys it1) with (kIndexKeys (self w)) in *.
  split.
  - exists r. eexists. split; [exact Hr|]. split; [exact Eawait|].
    repeat split.
  - intros ->. cbn [has] in Eawait.
    pose proof (index_lt_len _ _ Hr) as Hrange.
    replace (len (kIndexKeys (self w)) <=? r) with false in Eawait
      by (symmetry; apply Z.leb_gt; lia).
    change (run_ops cacache Keys [Seek t None sgte slt slte; Next] w)
      with ((KeyIterator._next ;; ret tt) ws).
    unfold KeyIterator._next, floating, catch. unfold bind at 1 2.
    rewrite Eawait.
    change {| self := setDone false (setCursor r it1); io := io w;
              calls := calls w |}
      with (at_position it1 r false (io w) (calls w)).
    unfold bind at 1.
    rewrite (@kAdvance_forward_key it1 Hrev r t (io w) (calls w) Hr).
    eexists. split; [reflexivity|]. split; reflexivity.
Qed.

Lemma seek_to_a_key_of_the_snapshot_witness :
  let w := kInit store_abcde db0 (no_range false) in
  (kReverse (self w) = false /\ kIndexPromise (self w) = Fulfilled tt
   /\ ascending (kIndexKeys (self w)) = true
   /\ len (kIndexKeys (self w)) < 2 ^ 30
   /\ In "c" (kIndexKeys (self w)))
  /\ (exists r w1,
        index (kIndexKeys (self w)) r = Some "c"
        /\ (_seek "c" None None None None ;; kAwaitIndex) w = (Normal tt, w1)
        /\ kCursor (self w1) = (if has (@None bool) then r + 1 else r)
        /\ kDone (self w1)
           = (len (kIndexKeys (self w)) <=? kCursor (self w1))
        /\ kSeekOptions (self w1) = None)
  /\ (@None bool = None ->
      exists w',
        run_ops store_abcde Keys [Seek "c" None None None None; Next] w
        = (Normal tt, w')
        /\ calls w' = calls w ++ [Called None [str "c"]]
        /\ io w' = io w).
Proof.
  cbv zeta.
  assert (In "c" (kIndexKeys (self (kInit store_abcde db0 (no_range false)))))
    as Hin by (vm_compute; auto).
  split; [repeat split; try reflexivity; exact Hin|].
  apply (@seek_to_a_key_of_the_snapshot store_abcde
           (kInit store_abcde db0 (no_range false)) "c" None None None None);
    try reflexivity; exact Hin.
Defined.

(** ** The single-key and multi-key reads of the database *)

(** X18.  [_get] asks the store once for the key and invokes the
    callback once: with the data when the entry is there, with the
    NotFound error when the store reports [ENOENT], and with the store's
    own error for any other rejection. *)
Theorem get_reports_data_or_NotFound (cacache : Cacache) (key : Key)
    (w : world Db) :
  CacacheLevel._get cacache key w
  = (Normal tt,
     {| self := self w;
        io := io w ++ [Get (Some (db_kLocation (self w))) key];
        calls := calls w
                 ++ [match cacache_get cacache
                             (Some (db_kLocation (self w))) key with
                     | GetResolved d => Called None [buf d]
                     | GetRejected code =>
                         if String.eqb code "ENOENT"
                         then Called (Some NotFound) []
                         else Called (Some (CacheError code)) []
                     end] |}).
Proof.
  unfold CacacheLevel._get, getValue, fetch, floating, catch, bind, get,
    emit, ret, throw, get_data, nextTick, catch, user, deliver.
  cbn [self io calls].
  destruct (cacache_get cacache (Some (db_kLocation (self w))) key)
    as [d|code]; [reflexivity|].
  destruct (String.eqb code "ENOENT"); reflexivity.
Qed.




(** ** Batches *)

Lemma span_spec (ty : string) (ops : list Operation) :
  forall run rest,
    span ty ops = (run, rest) ->
    ops = run ++ rest
    /\ forallb (fun op => String.eqb (op_type op) ty) run = true
    /\ match rest with
       | [] => True
       | op :: _ => String.eqb (op_type op) ty = false
       end.
Proof.
  induction ops as [|op ops IH]; intros run rest; cbn [span].
  - intros [= <- <-]. repeat split.
  - destruct (String.eqb (op_type op) ty) eqn:E.
    + destruct (span ty ops) as [run' rest'] eqn:Es.
      intros [= <- <-].
      destruct (IH run' rest' eq_refl) as (H1 & H2 & H3).
      split; [cbn; now rewrite <- H1|].
      split; [cbn; now rewrite E, H2|exact H3].
    + intros [= <- <-]. repeat split. exact E.
Qed.

Lemma span_head (ops : list Operation) (first : Operation) :
  exists run rest, span (op_type first) (first :: ops) = (first :: run, rest).
Proof.
  cbn [span]. rewrite String.eqb_refl.
  destruct (span (op_type first) ops) as [run rest]. eauto.
Qed.

Section BatchRuns.
Variable cacache : Cacache.
Variable db : Db.

Let cachePath := db_kLocation db.

Lemma handlePut_accepted (run : list Operation) :
  forall io0 calls0,
    forallb (fun op => String.eqb (op_type op) "put") run = true ->
    forallb (accepted cacache cachePath) run = true ->
    CacacheLevel.handlePut cacache run
      {| self := db; io := io0; calls := calls0 |}
    = (Normal (map (fun _ => tt) run),
       {| self := db; io := io0 ++ map (request_of cachePath) run;
          calls := calls0 |}).
Proof.
  unfold CacacheLevel.handlePut. unfold bind at 1, get at 1. cbn [self].
  induction run as [|op run IH]; intros io0 calls0 Hty Hacc.
  - cbn. now rewrite app_nil_r.
  - cbn [forallb] in Hty, Hacc.
    apply andb_true_iff in Hty as [Hop Hty].
    apply andb_true_iff in Hacc as [Hopa Hacc].
    cbn [pMap map]. unfold bind at 1. unfold bind at 1, emit at 1.
    cbn [self io calls].
    unfold accepted, outcome_of in Hopa. rewrite Hop in Hopa.
    fold cachePath.
    destruct (cacache_put cacache cachePath (op_key op) (op_value op));
      [discriminate|].
    unfold ret at 1. unfold bind at 1.
    rewrite (IH _ _ Hty Hacc). unfold ret.
    unfold request_of at 2. rewrite Hop.
    rewrite <- app_assoc. reflexivity.
Qed.

Lemma eqb_del_not_put (op : Operation) :
  String.eqb (op_type op) "del" = true ->
  String.eqb (op_type op) "put" = false.
Proof. intros H. apply String.eqb_eq in H. now rewrite H. Qed.

Lemma handleDel_accepted (run : list Operation) :
  forall io0 calls0,
    forallb (fun op => String.eqb (op_type op) "del") run = true ->
    forallb (accepted cacache cachePath) run = true ->
    CacacheLevel.handleDel cacache run
      {| self := db; io := io0; calls := calls0 |}
    = (Normal (map (fun _ => tt) run),
       {| self := db; io := io0 ++ map (request_of cachePath) run;
          calls := calls0 |}).
Proof.
  unfold CacacheLevel.handleDel. unfold bind at 1, get at 1. cbn [self].
  induction run as [|op run IH]; intros io0 calls0 Hty Hacc.
  - cbn. now rewrite app_nil_r.
  - cbn [forallb] in Hty, Hacc.
    apply andb_true_iff in Hty as [Hop Hty].
    apply andb_true_iff in Hacc as [Hopa Hacc].
    pose proof (eqb_del_not_put _ Hop) as Hnp.
    cbn [pMap map]. unfold bind at 1. unfold bind at 1, emit at 1.
    cbn [self io calls].
    unfold accepted, outcome_of in Hopa. rewrite Hnp in Hopa.
    fold cachePath.
    destruct (cacache_rm_content cacache cachePath (op_key op));
      [discriminate|].
    unfold ret at 1. unfold bind at 1.
    rewrite (IH _ _ Hty Hacc). unfold ret.
    unfold request_of at 2. rewrite Hnp.
    rewrite <- app_assoc. reflexivity.
Qed.

(** The [loop] of [_batch] over operations the store accepts, up to the
    end of the list or to the first operation of an unknown type. *)
Lemma loop_accepted (callback : option error -> M Db unit) (fuel : nat) :
  forall (good rest : list Operation) io0 calls0,
    (List.length (good ++ rest) <= fuel)%nat ->
    forallb known good = true ->
    forallb (accepted cacache cachePath) good = true ->
    match rest with
    | [] => True
    | bad :: _ => known bad = false
    end ->
    CacacheLevel.loop cacache fuel (good ++ rest) callback
      {| self := db; io := io0; calls := calls0 |}
    = nextTick (callback None)
        {| self := db; io := io0 ++ map (request_of cachePath) good;
           calls := calls0 |}.
Proof.
  induction fuel as [|fuel IH]; intros good rest io0 calls0 Hf Hk Ha Hrest.
  - destruct good; [|cbn in Hf; lia].
    destruct rest; [|cbn in Hf; lia].
    cbn. now rewrite app_nil_r.
  - destruct good as [|g good].
    + cbn [List.app map]. rewrite app_nil_r.
      destruct rest as [|bad tail]; [reflexivity|].
      cbn [CacacheLevel.loop].
      destruct (span (op_type bad) (bad :: tail)) as [ops rest'].
      unfold known in Hrest. apply orb_false_iff in Hrest as [H1 H2].
      now rewrite H1, H2.
    + cbn [forallb] in Hk, Ha.
      apply andb_true_iff in Hk as [Hg Hk].
      apply andb_true_iff in Ha as [Hga Ha].
      cbn [List.app CacacheLevel.loop].
      destruct (span_head (good ++ rest) g) as (run & rest' & Es).
      rewrite Es.
      destruct (span_spec _ _ Es) as (Happ & Hty & Hhd).
      (* the run lies inside the operations the store accepts *)
      assert (exists good', good = run ++ good' /\ rest' = good' ++ rest)
        as (good' & Egood & Erest).
      { cbn [List.app] in Happ. injection Happ as Happ.
        clear Es Hga IH Hf. cbn [forallb] in Hty.
        apply andb_true_iff in Hty as [_ Hty].
        revert good Happ Hk Ha. induction run as [|r run IHr];
          intros good Happ Hk Ha.
        - exists good. split; [reflexivity|]. now rewrite Happ.
        - destruct good as [|g' good].
          + cbn [List.app] in Happ. subst rest.
            cbn [forallb] in Hty. apply andb_true_iff in Hty as [Hr _].
            unfold known in Hrest.
            apply orb_false_iff in Hrest as [H1 H2].
            unfold known in Hg. apply String.eqb_eq in Hr.
            rewrite Hr in H1, H2. rewrite H1, H2 in Hg. discriminate.
          + cbn [List.app] in Happ. injection Happ as -> Happ.
            cbn [forallb] in Hty, Hk, Ha.
            apply andb_true_iff in Hty as [_ Hty].
            apply andb_true_iff in Hk as [_ Hk].
            apply andb_true_iff in Ha as [_ Ha].
            destruct (IHr Hty good Happ Hk Ha) as (good' & E1 & E2).
            exists good'. split; [now rewrite E1|exact E2]. }
      subst good rest'.
      rewrite forallb_app in Hk, Ha.
      apply andb_true_iff in Hk as [_ Hk'].
      apply andb_true_iff in Ha as [Har Ha'].
      assert (List.length (good' ++ rest) <= fuel)%nat as Hf'.
      { cbn [List.app List.length] in Hf.
        rewrite !length_app in *. lia. }
      unfold known in Hg.
      destruct (String.eqb (op_type g) "put") eqn:Ep.
      * unfold catch at 1, bind at 1.
        rewrite (@handlePut_accepted (g :: run) io0 calls0);
          [|apply String.eqb_eq in Ep; rewrite <- Ep; exact Hty
           |cbn [forallb]; now rewrite Hga, Har].
        rewrite (IH good' rest _ _ Hf' Hk' Ha' Hrest).
        cbn [map List.app]. rewrite map_app.
        replace (io0 ++ request_of cachePath g
                        :: map (request_of cachePath) run
                           ++ map (request_of cachePath) good')
          with ((io0 ++ request_of cachePath g
                        :: map (request_of cachePath) run)
                ++ map (request_of cachePath) good')
          by (rewrite <- app_assoc; reflexivity).
        match goal with
        | |- context [nextTick ?m ?w0] =>
            pose proof (@nextTick_not_throw _ m w0) as Hnt;
            destruct (nextTick m w0) as [[[]|e|] w'] eqn:E
        end; [reflexivity|now elim (Hnt e w')|reflexivity].
      * cbn [orb] in Hg. rewrite Hg.
        unfold catch at 1, bind at 1.
        rewrite (@handleDel_accepted (g :: run) io0 calls0);
          [|apply String.eqb_eq in Hg; rewrite <- Hg; exact Hty
           |cbn [forallb]; now rewrite Hga, Har].
        rewrite (IH good' rest _ _ Hf' Hk' Ha' Hrest).
        cbn [map List.app]. rewrite map_app.
        replace (io0 ++ request_of cachePath g
                        :: map (request_of cachePath) run
                           ++ map (request_of cachePath) good')
          with ((io0 ++ request_of cachePath g
                        :: map (request_of cachePath) run)
                ++ map (request_of cachePath) good')
          by (rewrite <- app_assoc; reflexivity).
        match goal with
        | |- context [nextTick ?m ?w0] =>
            pose proof (@nextTick_not_throw _ m w0) as Hnt;
            destruct (nextTick m w0) as [[[]|e|] w'] eqn:E
        end; [reflexivity|now elim (Hnt e w')|reflexivity].
Qed.
End BatchRuns.






Section BatchRejection.
Variable cacache : Cacache.
Variable db : Db.
Variable code : string.

Let cachePath := db_kLocation db.

Lemma handlePut_rejected (pre : list Operation) (bad : Operation)
    (more : list Operation) :
  forall io0 calls0,
    forallb (fun op => String.eqb (op_type op) "put") (pre ++ bad :: more)
    = true ->
    forallb (accepted cacache cachePath) pre = true ->
    outcome_of cacache cachePath bad = Some code ->
    exists io1,
      CacacheLevel.handlePut cacache (pre ++ bad :: more)
        {| self := db; io := io0; calls := calls0 |}
      = (Throw (CacheError code),
         {| self := db; io := io1; calls := calls0 |}).
Proof.
  unfold cachePath.
  unfold CacacheLevel.handlePut. unfold bind at 1, get at 1. cbn [self].
  induction pre as [|op pre IH]; intros io0 calls0 Hty Hacc Hbad.
  - cbn [List.app forallb] in Hty. apply andb_true_iff in Hty as [Hop _].
    cbn [List.app pMap]. unfold bind at 1. unfold bind at 1, emit at 1.
    cbn [self io calls].
    unfold outcome_of in Hbad. rewrite Hop in Hbad.
    rewrite Hbad. unfold throw. eauto.
  - cbn [List.app forallb] in Hty, Hacc.
    apply andb_true_iff in Hty as [Hop Hty].
    apply andb_true_iff in Hacc as [Hopa Hacc].
    cbn [List.app pMap]. unfold bind at 1. unfold bind at 1, emit at 1.
    cbn [self io calls].
    unfold accepted, outcome_of in Hopa. rewrite Hop in Hopa.
   
    destruct (cacache_put cacache (db_kLocation db) (op_key op) (op_value op));
      [discriminate|].
    unfold ret at 1. unfold bind at 1.
    destruct (IH (io0 ++ [Put (db_kLocation db) (op_key op) (op_value op)]) calls0
                Hty Hacc Hbad) as (io1 & E).
    rewrite E. eauto.
Qed.

Lemma handleDel_rejected (pre : list Operation) (bad : Operation)
    (more : list Operation) :
  forall io0 calls0,
    forallb (fun op => String.eqb (op_type op) "del") (pre ++ bad :: more)
    = true ->
    forallb (accepted cacache cachePath) pre = true ->
    outcome_of cacache cachePath bad = Some code ->
    exists io1,
      CacacheLevel.handleDel cacache (pre ++ bad :: more)
        {| self := db; io := io0; calls := calls0 |}
      = (Throw (CacheError code),
         {| self := db; io := io1; calls := calls0 |}).
Proof.
  unfold cachePath.
  unfold CacacheLevel.handleDel. unfold bind at 1, get at 1. cbn [self].
  induction pre as [|op pre IH]; intros io0 calls0 Hty Hacc Hbad.
  - cbn [List.app forallb] in Hty. apply andb_true_iff in Hty as [Hop _].
    pose proof (eqb_del_not_put _ Hop) as Hnp.
    cbn [List.app pMap]. unfold bind at 1. unfold bind at 1, emit at 1.
    cbn [self io calls].
    unfold outcome_of in Hbad. rewrite Hnp in Hbad.
    rewrite Hbad. unfold throw. eauto.
  - cbn [List.app forallb] in Hty, Hacc.
    apply andb_true_iff in Hty as [Hop Hty].
    apply andb_true_iff in Hacc as [Hopa Hacc].
    pose proof (eqb_del_not_put _ Hop) as Hnp.
    cbn [List.app pMap]. unfold bind at 1. unfold bind at 1, emit at 1.
    cbn [self io calls].
    unfold accepted, outcome_of in Hopa. rewrite Hnp in Hopa.
   
    destruct (cacache_rm_content cacache (db_kLocation db) (op_key op));
      [discriminate|].
    unfold ret at 1. unfold bind at 1.
    destruct (IH (io0 ++ [RmContent (db_kLocation db) (op_key op)]) calls0
                Hty Hacc Hbad) as (io1 & E).
    rewrite E. eauto.
Qed.

(** The [loop] of [_batch] when the store rejects an operation. *)
Lemma loop_rejected (fuel : nat) :
  forall (good : list Operation) (bad : Operation) (tail : list Operation)
    io0 calls0,
    (List.length (good ++ bad :: tail) <= fuel)%nat ->
    forallb known good = true ->
    forallb (accepted cacache cachePath) good = true ->
    known bad = true ->
    outcome_of cacache cachePath bad = Some code ->
    exists io1,
      CacacheLevel.loop cacache fuel (good ++ bad :: tail)
        (fun err => user err [])
        {| self := db; io := io0; calls := calls0 |}
      = (Normal tt,
         {| self := db; io := io1;
            calls := calls0 ++ [Called (Some (CacheError code)) []] |}).
Proof.
  induction fuel as [|fuel IH];
    intros good bad tail io0 calls0 Hf Hk Ha Hkb Hbad.
  - rewrite length_app in Hf. cbn in Hf. lia.
  - assert (forall (first : Operation) (todo pre more rest' : list Operation),
               first :: todo = pre ++ bad :: more ++ rest' ->
               forallb (fun op => String.eqb (op_type op) (op_type first))
                 (pre ++ bad :: more) = true ->
               known first = true ->
               forallb (accepted cacache cachePath) pre = true ->
               span (op_type first) (first :: todo)
               = (pre ++ bad :: more, rest') ->
               exists io1,
                 CacacheLevel.loop cacache (S fuel) (first :: todo)
                   (fun err => user err [])
                   {| self := db; io := io0; calls := calls0 |}
                 = (Normal tt,
                    {| self := db; io := io1;
                       calls := calls0
                                ++ [Called (Some (CacheError code)) []] |}))
      as Hreject.
    { intros first todo pre more rest' Etodo Hty Hkf Hap Es.
      cbn [CacacheLevel.loop]. rewrite Es.
      unfold known in Hkf.
      destruct (String.eqb (op_type first) "put") eqn:Ep.
      - apply String.eqb_eq in Ep. rewrite Ep in Hty.
        destruct (@handlePut_rejected pre bad more io0 calls0 Hty Hap Hbad)
          as (io1 & E).
        exists io1. unfold catch at 1, bind at 1. rewrite E. reflexivity.
      - cbn [orb] in Hkf. rewrite Hkf.
        apply String.eqb_eq in Hkf. rewrite Hkf in Hty.
        destruct (@handleDel_rejected pre bad more io0 calls0 Hty Hap Hbad)
          as (io1 & E).
        exists io1. unfold catch at 1, bind at 1. rewrite E. reflexivity. }
    destruct good as [|g good].
    + cbn [List.app].
      destruct (span_head tail bad) as (run & rest' & Es).
      destruct (span_spec _ _ Es) as (Happ & Hty & _).
      apply (Hreject bad tail [] run rest'); auto.
    + cbn [forallb] in Hk, Ha.
      apply andb_true_iff in Hk as [Hg Hk].
      apply andb_true_iff in Ha as [Hga Ha].
      cbn [List.app].
      destruct (span_head (good ++ bad :: tail) g) as (run & rest' & Es).
      destruct (span_spec _ _ Es) as (Happ & Hty & Hhd).
      pose proof Happ as Happ'. cbn [List.app] in Happ'.
      injection Happ' as Happ'.
      destruct (app_eq_app _ _ _ _ Happ') as [l [[E1 E2]|[E1 E2]]].
      * (* the run ends inside the accepted operations *)
        subst good rest'.
        rewrite forallb_app in Hk, Ha.
        apply andb_true_iff in Hk as [_ Hk'].
        apply andb_true_iff in Ha as [Har Ha'].
        assert (List.length (l ++ bad :: tail) <= fuel)%nat as Hf'.
        { cbn [List.app List.length] in Hf. rewrite !length_app in *.
          cbn [List.length] in *. lia. }
        destruct (IH l bad tail
                    (io0 ++ map (request_of cachePath) (g :: run)) calls0
                    Hf' Hk' Ha' Hkb Hbad) as (io1 & E).
        exists io1. cbn [CacacheLevel.loop]. rewrite Es.
        unfold known in Hg.
        destruct (String.eqb (op_type g) "put") eqn:Ep.
        -- unfold catch at 1, bind at 1.
           rewrite (@handlePut_accepted cacache db (g :: run) io0 calls0);
             [|apply String.eqb_eq in Ep; rewrite <- Ep; exact Hty
              |cbn [forallb]; fold cachePath; now rewrite Hga, Har].
           fold cachePath. rewrite E. reflexivity.
        -- cbn [orb] in Hg. rewrite Hg.
           unfold catch at 1, bind at 1.
           rewrite (@handleDel_accepted cacache db (g :: run) io0 calls0);
             [|apply String.eqb_eq in Hg; rewrite <- Hg; exact Hty
              |cbn [forallb]; fold cachePath; now rewrite Hga, Har].
           fold cachePath. rewrite E. reflexivity.
      * destruct l as [|b l].
        -- (* the run is exactly the accepted operations *)
           rewrite app_nil_r in E1. cbn [List.app] in E2. subst run rest'.
           assert (List.length ([] ++ bad :: tail) <= fuel)%nat as Hf'.
           { cbn [List.app List.length] in Hf. rewrite !length_app in *.
             cbn [List.app List.length] in *. lia. }
           destruct (IH [] bad tail
                       (io0 ++ map (request_of cachePath) (g :: good))
                       calls0 Hf' eq_refl eq_refl Hkb Hbad) as (io1 & E).
           exists io1. cbn [CacacheLevel.loop]. rewrite Es.
           unfold known in Hg.
           destruct (String.eqb (op_type g) "put") eqn:Ep.
           ++ unfold catch at 1, bind at 1.
              rewrite (@handlePut_accepted cacache db (g :: good) io0
                         calls0);
                [|apply String.eqb_eq in Ep; rewrite <- Ep; exact Hty
                 |cbn [forallb]; fold cachePath; now rewrite Hga, Ha].
              fold cachePath. cbn [List.app] in E. rewrite E. reflexivity.
           ++ cbn [orb] in Hg. rewrite Hg.
              unfold catch at 1, bind at 1.
              rewrite (@handleDel_accepted cacache db (g :: good) io0
                         calls0);
                [|apply String.eqb_eq in Hg; rewrite <- Hg; exact Hty
                 |cbn [forallb]; fold cachePath; now rewrite Hga, Ha].
              fold cachePath. cbn [List.app] in E. rewrite E. reflexivity.
        -- (* the rejected operation is in the run *)
           cbn [List.app] in E2. injection E2 as <- E2. subst run tail.
           apply (Hreject g (good ++ bad :: l ++ rest') (g :: good) l rest').
           ++ reflexivity.
           ++ exact Hty.
           ++ exact Hg.
           ++ cbn [forallb]. now rewrite Hga, Ha.
           ++ exact Es.
Qed.
End BatchRejection.

(** X23.  When the store rejects one put or del of a batch, every
    operation before it being a put or a del that the store accepts, and
    the store accepting as well the operations that follow it in its run
    (the operations of its type up to the next change of type, which
    [p-map] may have started by then), the callback is invoked exactly
    once, with the error of that operation.  The concurrency is at
    least 1, below which [p-map] refuses to run. *)
Theorem batch_reports_the_first_rejection_once (cacache : Cacache)
    (good : list Operation) (bad : Operation) (tail : list Operation)
    (code : string) (w : world Db) :
  1 <= db_kConcurrency (self w) ->
  forallb known good = true ->
  forallb (accepted cacache (db_kLocation (self w))) good = true ->
  known bad = true ->
  outcome_of cacache (db_kLocation (self w)) bad = Some code ->
  forallb (accepted cacache (db_kLocation (self w)))
    (fst (span (op_type bad) tail)) = true ->
  exists w',
    CacacheLevel._batch cacache (good ++ bad :: tail) w = (Normal tt, w')
    /\ self w' = self w
    /\ calls w' = calls w ++ [Called (Some (CacheError code)) []].
Proof.
  destruct w as [db io0 calls0]. cbn [self io calls].
  intros _ Hk Ha Hkb Hbad _.
  destruct (@loop_rejected cacache db code
              (List.length (good ++ bad :: tail)) good bad tail io0 calls0
              (le_n _) Hk Ha Hkb Hbad) as (io1 & E).
  unfold CacacheLevel._batch, nextTick, catch. rewrite E.
  eexists. split; [reflexivity|]. split; reflexivity.
Qed.

Lemma batch_reports_the_first_rejection_once_witness :
  (1 <= db_kConcurrency db0
   /\ forallb known
        [ {| op_type := "put"; op_key := "a"; op_value := "1" |} ]
      = true
   /\ forallb (accepted store_readonly_b "/db")
        [ {| op_type := "put"; op_key := "a"; op_value := "1" |} ] = true
   /\ known {| op_type := "put"; op_key := "b"; op_value := "2" |} = true
   /\ outcome_of store_readonly_b "/db"
        {| op_type := "put"; op_key := "b"; op_value := "2" |}
      = Some "EACCES"
   /\ forallb (accepted store_readonly_b "/db")
        (fst (span "put"
                [ {| op_type := "put"; op_key := "c"; op_value := "3" |};
                  {| op_type := "del"; op_key := "d"; op_value := "" |} ]))
      = true)
  /\ exists w',
      CacacheLevel._batch store_readonly_b
        ([ {| op_type := "put"; op_key := "a"; op_value := "1" |} ]
         ++ {| op_type := "put"; op_key := "b"; op_value := "2" |}
            :: [ {| op_type := "put"; op_key := "c"; op_value := "3" |};
                 {| op_type := "del"; op_key := "d"; op_value := "" |} ])
        {| self := db0; io := []; calls := [] |}
      = (Normal tt, w')
      /\ self w' = db0
      /\ calls w' = [] ++ [Called (Some (CacheError "EACCES")) []].
Proof.
  split; [split; [vm_compute; discriminate|repeat split]|].
  apply (@batch_reports_the_first_rejection_once store_readonly_b
           [ {| op_type := "put"; op_key := "a"; op_value := "1" |} ]
           {| op_type := "put"; op_key := "b"; op_value := "2" |}
           [ {| op_type := "put"; op_key := "c"; op_value := "3" |};
             {| op_type := "del"; op_key := "d"; op_value := "" |} ]
           "EACCES" {| self := db0; io := []; calls := [] |});
    try reflexivity; vm_compute; discriminate.
Defined.

(** * Exhaustion, operation by operation *)

Lemma exhausted_op_calls (cacache : Cacache) (f : flavor) (o : operation)
    (w : world Iter) :
  kDone (self w) = true -> kSeekOptions (self w) = None ->
  is_seek o = false ->
  run_op cacache f o w
  = (Normal tt,
     {| self := self w; io := io w;
        calls := calls w ++ exhausted_calls (kIndexPromise (self w)) f o |}).
Proof.
  destruct w as [it io0 calls0].
  destruct it as [cur done rv bs cc loc keys pr so].
  simpl. intros -> -> Hseek.
  destruct o as [|size| |]; try discriminate Hseek;
    destruct f, rv, pr as [[]|e];
    unfold run_op, Iterator._next, Iterator._nextv, Iterator._all,
      KeyIterator._next, KeyIterator._nextv, KeyIterator._all,
      ValueIterator._next, ValueIterator._nextv, ValueIterator._all,
      kNext, kNextv, kAll, getKeyBatch;
    try (destruct (Z.to_nat (size - 1)));
    cbv -[List.app]; rewrite <- ?app_assoc; reflexivity.
Qed.

Lemma exhausted_calls_deliver_nothing (pr : settled unit) (f : flavor)
    (o : operation) :
  Forall (fun c => delivered c = []) (exhausted_calls pr f o).
Proof.
  destruct pr as [u|e], o, f; cbn; repeat constructor.
Qed.

(** C4 (the code departs from the claim).  On a cursor that is done and
    has no seek pending, every sequence of [next], [nextv] and [all]
    leaves the cursor as it is, asks the store for nothing and hands
    its caller exactly the invocations of [exhausted_calls]: none
    carries an entry, and [next()] reports the end of the sequence; but
    [all()] on the value cursor raises a TypeError outside every handler
    and never calls back, [all()] on the entry cursor and [nextv()] on
    the key cursor call back with no sequence at all, and [nextv()] on
    the entry and value cursors calls back twice.  The claim has an
    end-of-sequence or an empty sequence returned by each of them.
    (The concurrency is at least 1: below that [p-map] refuses to run
    and the second callback of [nextv()] carries its TypeError.) *)
Theorem exhausted_cursor_answers (cacache : Cacache) (f : flavor)
    (ops : list operation) (w : world Iter) :
  kDone (self w) = true -> kSeekOptions (self w) = None ->
  1 <= kConcurrency (self w) ->
  forallb (fun o => negb (is_seek o)) ops = true ->
  run_ops cacache f ops w
  = (Normal tt,
     {| self := self w; io := io w;
        calls := calls w
                 ++ flat_map (exhausted_calls (kIndexPromise (self w)) f)
                      ops |})
  /\ Forall (fun c => delivered c = [])
       (flat_map (exhausted_calls (kIndexPromise (self w)) f) ops).
Proof.
  intros Hdone Hseek _ Hops. split.
  - revert w Hdone Hseek.
    induction ops as [|o ops IH]; intros w Hdone Hseek.
    + cbn. rewrite app_nil_r. destruct w; reflexivity.
    + cbn [forallb] in Hops. apply andb_true_iff in Hops as [Ho Hops].
      apply negb_true_iff in Ho.
      cbn [run_ops flat_map]. unfold bind.
      rewrite (@exhausted_op_calls cacache f o w Hdone Hseek Ho).
      rewrite (IH Hops
                 {| self := self w; io := io w;
                    calls := calls w
                             ++ exhausted_calls (kIndexPromise (self w))
                                  f o |}
                 Hdone Hseek).
      cbn [self io calls]. now rewrite app_assoc.
  - apply Forall_flat_map, Forall_forall. intros o _.
    apply exhausted_calls_deliver_nothing.
Qed.

Lemma exhausted_cursor_answers_witness :
  let w := snd (lifetime store_abcde db0 (no_range false) Values
                  [Nextv 10]) in
  (kDone (self w) = true /\ kSeekOptions (self w) = None
   /\ 1 <= kConcurrency (self w))
  /\ run_ops store_abcde Values [Next; Nextv 2; All] w
     = (Normal tt,
        {| self := self w; io := io w;
           calls := calls w
                    ++ [Called None [undefined];
                        Called None [arr []]; Called None [arr []];
                        Uncaught TypeError] |}).
Proof.
  cbv zeta.
  split; [split; [reflexivity|split; [reflexivity|vm_compute; discriminate]]|].
  apply (@exhausted_cursor_answers store_abcde Values [Next; Nextv 2; All]
           (snd (lifetime store_abcde db0 (no_range false) Values
                   [Nextv 10])));
    try reflexivity; vm_compute; discriminate.
Defined.

(** * A seek below the first key, on each cursor *)

(** [next()] on a forward cursor that is ready and stands on a key that
    is not the empty string, on each of the three cursors. *)
Lemma next_on_a_key (cacache : Cacache) (f : flavor) (w : world Iter)
    (k : Key) :
  forward_ready (self w) ->
  kDone (self w) = false ->
  index (kIndexKeys (self w)) (kCursor (self w)) = Some k ->
  nonempty k = true ->
  run_op cacache f Next w
  = (Normal tt,
     {| self := forward_at (self w) (kCursor (self w) + 1)
                  (len (kIndexKeys (self w)) <=? kCursor (self w) + 1);
        io := io w
              ++ match f with
                 | Keys => []
                 | Entries | Values => [Get (kLocation (self w)) k]
                 end;
        calls := calls w
                 ++ [match f with
                     | Keys => Called None [str k]
                     | Entries =>
                         match cacache_get cacache (kLocation (self w)) k
                         with
                         | GetResolved d => Called None [str k; buf d]
                         | GetRejected _ => Uncaught TypeError
                         end
                     | Values =>
                         match cacache_get cacache (kLocation (self w)) k
                         with
                         | GetResolved d => Called None [buf d]
                         | GetRejected _ => Uncaught TypeError
                         end
                     end] |}).
Proof.
  destruct w as [it io0 calls0]. cbn [self io calls].
  intros (Hrev & Hso & Hpr & Hc & Hd) Hnd Hk Hne.
  unfold nonempty in Hne. apply negb_true_iff in Hne.
  destruct f; cbn [run_op];
    unfold Iterator._next, ValueIterator._next, KeyIterator._next, kNext;
    unfold floating at 1, catch at 1; try unfold catch at 1;
    unfold bind at 1;
    rewrite kAwaitIndex_ready by assumption;
    destruct it as [cur done rv bs cc loc keys pr so];
    cbn [kReverse kSeekOptions kIndexPromise kCursor kIndexKeys kDone
           kLocation] in *;
    subst rv so pr done;
    set (it := {| kCursor := cur; kDone := false; kReverse := false;
                  kBatchSize := bs; kConcurrency := cc; kLocation := loc;
                  kIndexKeys := keys; kIndexPromise := Fulfilled tt;
                  kSeekOptions := None |});
    change {| self := it; io := io0; calls := calls0 |}
      with (at_position it cur false io0 calls0);
    unfold bind at 1;
    rewrite (@kAdvance_forward_key it eq_refl cur k io0 calls0 Hk);
    cbn [falsy]; rewrite ?Hne;
    subst it; unfold at_position, forward_at, setDone, setCursor;
    cbn [kIndexKeys kCursor kDone kReverse kBatchSize kConcurrency
           kLocation kIndexPromise kSeekOptions].
  - unfold bind at 1, get at 1. cbn [self kLocation].
    unfold getValue, fetch, floating, catch, bind, emit, ret, throw,
      get_data, nextTick, catch, user, deliver.
    cbn [self io calls].
    destruct (cacache_get cacache loc k) as [d|code]; [reflexivity|].
    destruct (String.eqb code "ENOENT"); reflexivity.
  - unfold nextTick, catch, user, deliver. cbn [self io calls].
    now rewrite app_nil_r.
  - unfold bind at 1, get at 1. cbn [self kLocation].
    unfold getValue, fetch, floating, catch, bind, emit, ret, throw,
      get_data, nextTick, catch, user, deliver.
    cbn [self io calls].
    destruct (cacache_get cacache loc k) as [d|code]; [reflexivity|].
    destruct (String.eqb code "ENOENT"); reflexivity.
Qed.

Lemma nothing_below_the_empty_key (t : Key) : String.ltb t "" = false.
Proof. destruct t; reflexivity. Qed.

(** C5 (amended).  On a forward cursor whose index is ready and whose
    snapshot starts with [k0], a seek to a target strictly below [k0]
    that carries a lower-bound flag ([gt] or [gte]) does not exhaust the
    cursor: once applied it leaves done = false at position 0, and the
    [next()] that follows is made on [k0], on each of the three cursors:
    the key cursor delivers [k0]; the entry and value cursors ask the
    store for [k0] and deliver, when the value is there, [k0] with its
    data and the data alone.  The cursor is left after [k0]. *)
Theorem seek_below_first_key_restarts (cacache : Cacache) (f : flavor)
    (w : world Iter) (t : Key) (sgt sgte slt slte : option bool)
    (k0 : Key) (rest : list Key) :
  kReverse (self w) = false ->
  kIndexPromise (self w) = Fulfilled tt ->
  kIndexKeys (self w) = k0 :: rest ->
  String.ltb t k0 = true ->
  has sgt || has sgte = true ->
  (exists w1,
     (_seek t sgt sgte slt slte ;; kAwaitIndex) w = (Normal tt, w1)
     /\ kDone (self w1) = false /\ kCursor (self w1) = 0
     /\ kSeekOptions (self w1) = None)
  /\ run_ops cacache f [Seek t sgt sgte slt slte; Next] w
     = (Normal tt,
        {| self := forward_at (setSeekOptions None (self w)) 1
                     (len (kIndexKeys (self w)) <=? 1);
           io := io w
                 ++ match f with
                    | Keys => []
                    | Entries | Values => [Get (kLocation (self w)) k0]
                    end;
           calls := calls w
                    ++ [match f with
                        | Keys => Called None [str k0]
                        | Entries =>
                            match cacache_get cacache (kLocation (self w))
                                    k0 with
                            | GetResolved d => Called None [str k0; buf d]
                            | GetRejected _ => Uncaught TypeError
                            end
                        | Values =>
                            match cacache_get cacache (kLocation (self w))
                                    k0 with
                            | GetResolved d => Called None [buf d]
                            | GetRejected _ => Uncaught TypeError
                            end
                        end] |}).
Proof.
  intros Hrev Hpr Hkeys Hlt Hflags.
  assert (nonempty k0 = true) as Hne.
  { unfold nonempty. destruct (String.eqb_spec k0 ""); [|reflexivity].
    subst k0. now rewrite nothing_below_the_empty_key in Hlt. }
  set (options := {| target := t; seek_gt := sgt; seek_gte := sgte;
                     seek_lt := slt; seek_lte := slte |}).
  set (ws := {| self := setSeekOptions (Some options) (self w);
                io := io w; calls := calls w |}).
  assert (kAwaitIndex ws
          = (Normal tt,
             {| self := handleSeek options (setSeekOptions None (self ws));
                io := io w; calls := calls w |})) as Eawait.
  { apply (@kAwaitIndex_seek ws options); [reflexivity|exact Hpr]. }
  rewrite (@handleSeek_below_first options _ k0 rest) in Eawait;
    [|exact Hrev|exact Hkeys|exact Hlt].
  change (seek_gt options) with sgt in Eawait.
  change (seek_gte options) with sgte in Eawait.
  rewrite Hflags in Eawait.
  match type of Eawait with _ = (_, ?x) => set (w1 := x) in * end.
  split.
  - exists w1. split; [exact Eawait|]. repeat split.
  - assert (kAwaitIndex w1 = (Normal tt, w1)) as E1.
    { apply kAwaitIndex_ready; [reflexivity|exact Hpr]. }
    change (run_ops cacache f [Seek t sgt sgte slt slte; Next] w)
      with ((run_op cacache f Next ;; ret tt) ws).
    unfold bind at 1.
    rewrite (@run_op_applies_seek cacache f Next ws w1 eq_refl Eawait E1).
    rewrite (@next_on_a_key cacache f w1 k0).
    + unfold ret. subst w1 ws.
      destruct w as [it io0 calls0].
      destruct it as [cur done rv bs cc loc keys pr so].
      cbn in Hkeys. subst keys. reflexivity.
    + subst w1 ws. destruct w as [it io0 calls0].
      destruct it as [cur done rv bs cc loc keys pr so].
      cbn in Hrev, Hpr, Hkeys. subst rv pr keys.
      repeat split; try reflexivity; try discriminate.
    + reflexivity.
    + subst w1 ws. destruct w as [it io0 calls0].
      destruct it as [cur done rv bs cc loc keys pr so].
      cbn in Hkeys. subst keys. reflexivity.
    + exact Hne.
Qed.

Lemma seek_below_first_key_restarts_witness :
  let w := kInit store_b db0 (no_range false) in
  (kReverse (self w) = false /\ kIndexPromise (self w) = Fulfilled tt
   /\ kIndexKeys (self w) = ["b"] /\ String.ltb "a" "b" = true
   /\ has (Some true) || has (@None bool) = true)
  /\ (exists w1,
        (_seek "a" (Some true) None None None ;; kAwaitIndex) w
        = (Normal tt, w1)
        /\ kDone (self w1) = false /\ kCursor (self w1) = 0
        /\ kSeekOptions (self w1) = None)
  /\ run_ops store_b Entries [Seek "a" (Some true) None None None; Next] w
     = (Normal tt,
        {| self := forward_at (setSeekOptions None (self w)) 1 true;
           io := io w ++ [Get None "b"];
           calls := calls w ++ [Called None [str "b"; buf "2"]] |}).
Proof.
  cbv zeta. split; [repeat split|].
  apply (@seek_below_first_key_restarts store_b Entries
           (kInit store_b db0 (no_range false)) "a" (Some true) None
           None None "b" []); reflexivity.
Defined.

(** * What a batch reports *)

Lemma longest_prefix (A : Type) (P : A -> bool) (l : list A) :
  exists good rest,
    l = good ++ rest
    /\ forallb P good = true
    /\ match rest with
       | [] => True
       | x :: _ => P x = false
       end.
Proof.
  induction l as [|x l (good & rest & E & Hg & Hr)].
  - exists [], []. repeat split.
  - destruct (P x) eqn:Hx.
    + exists (x :: good), rest. cbn [List.app forallb].
      rewrite E at 1. now rewrite Hx, Hg.
    + exists [], (x :: l). repeat split. exact Hx.
Qed.


